(** * A shallow embedding of the audition synthesiser of spec_annotate

    [Synth] models [SynthEngine] of [src/spec_annotate/synth.py]: the voice
    pool (a Python dict, kept as an association list in insertion order), the
    control calls and the render callback [_render_chunk].  [Audition] models
    the scheduler [MainWindow._audition_update_for_time] of
    [src/spec_annotate/main_window.py]; [Window] models the other handlers of
    [MainWindow] that drive the synth (stopping the audition, the pitch and
    note previews, the audition volume) and [nudge_seconds].

    Python floats are modelled as exact rationals [Q]; [np.sin], Python's
    float power [**] and [librosa.midi_to_hz] are left abstract (section
    variables).  The constant [np.pi] is the double it denotes, an exact
    rational. *)

From Stdlib Require Import ZArith QArith Qround Qabs Qfield List Bool Lia Lqa.
Import ListNotations.

Module Synth.

Open Scope Q_scope.

(** The ['state'] string of a voice dict. *)
Inductive env_state : Type := Attack | Sustain | Release | Done.

(** A voice dict: ['freq'], ['phase'], ['gain'], ['state'], ['env'],
    ['attack_inc'], ['release_inc']. *)
Record voice : Type := mkVoice {
  freq : Q;
  phase : Q;
  gain : Q;
  state : env_state;
  env : Q;
  attack_inc : Q;
  release_inc : Q
}.

Definition with_state (v : voice) (st : env_state) : voice :=
  mkVoice (freq v) (phase v) (gain v) st (env v) (attack_inc v) (release_inc v).
Definition with_env (v : voice) (x : Q) : voice :=
  mkVoice (freq v) (phase v) (gain v) (state v) x (attack_inc v) (release_inc v).
Definition with_env_state (v : voice) (x : Q) (st : env_state) : voice :=
  mkVoice (freq v) (phase v) (gain v) st x (attack_inc v) (release_inc v).
Definition with_phase (v : voice) (p : Q) : voice :=
  mkVoice (freq v) p (gain v) (state v) (env v) (attack_inc v) (release_inc v).
Definition with_freq (v : voice) (f : Q) : voice :=
  mkVoice f (phase v) (gain v) (state v) (env v) (attack_inc v) (release_inc v).

(** The sounddevice output stream, as far as [stop] observes it. *)
Record stream_state : Type := mkStream { running : bool; closed : bool }.

(** The attributes of a [SynthEngine] object. *)
Record engine : Type := mkEngine {
  sample_rate : Z;
  max_voices : Z;
  blocksize : Z;
  next_voice_id : Z;
  voices : list (Z * voice);
  master_gain : Q;
  attack_sec : Q;
  release_sec : Q;
  stream : stream_state
}.

Definition set_voices (e : engine) (vs : list (Z * voice)) : engine :=
  mkEngine (sample_rate e) (max_voices e) (blocksize e) (next_voice_id e) vs
    (master_gain e) (attack_sec e) (release_sec e) (stream e).
Definition set_next_voices (e : engine) (n : Z) (vs : list (Z * voice)) : engine :=
  mkEngine (sample_rate e) (max_voices e) (blocksize e) n vs
    (master_gain e) (attack_sec e) (release_sec e) (stream e).
Definition set_stream_voices (e : engine) (s : stream_state) (vs : list (Z * voice)) : engine :=
  mkEngine (sample_rate e) (max_voices e) (blocksize e) (next_voice_id e) vs
    (master_gain e) (attack_sec e) (release_sec e) s.
Definition set_master_gain (e : engine) (g : Q) : engine :=
  mkEngine (sample_rate e) (max_voices e) (blocksize e) (next_voice_id e) (voices e)
    g (attack_sec e) (release_sec e) (stream e).

(** ** Python dict operations on an association list *)

Fixpoint dict_get {A} (k : Z) (l : list (Z * A)) : option A :=
  match l with
  | [] => None
  | (k', a) :: l' => if Z.eqb k k' then Some a else dict_get k l'
  end.

(** [d[k] = a]: replaces the value in place when [k] is a key, else appends. *)
Fixpoint dict_set {A} (k : Z) (a : A) (l : list (Z * A)) : list (Z * A) :=
  match l with
  | [] => [(k, a)]
  | (k', a') :: l' => if Z.eqb k k' then (k', a) :: l' else (k', a') :: dict_set k a l'
  end.

(** [d.pop(k, None)] with the result dropped. *)
Definition dict_pop {A} (k : Z) (l : list (Z * A)) : list (Z * A) :=
  filter (fun p => negb (Z.eqb k (fst p))) l.

Definition dict_keys {A} (l : list (Z * A)) : list Z := map fst l.

(** ** Python and NumPy numerics *)

Definition qlt_bool (x y : Q) : bool := negb (Qle_bool y x).

(** [int(q)]: truncation towards zero. *)
Definition py_int (q : Q) : Z :=
  if Qle_bool 0 q then Qfloor q else (- Qfloor (- q))%Z.

(** [np.pi], the double 884279719003555 / 2^48. *)
Definition np_pi : Q := 884279719003555 # 281474976710656.
Definition two_pi : Q := 2 * np_pi.

(** [np.mod(x, m)] = x - m * floor(x / m). *)
Definition np_mod (x m : Q) : Q := x - m * inject_Z (Qfloor (x / m)).

(** [np.arange(n)] as integers. *)
Definition zseq (n : Z) : list Z := map Z.of_nat (seq 0 (Z.to_nat n)).

(** The end of the slice [a[:idx]] of an array of length [n]. *)
Definition py_stop (idx n : Z) : Z :=
  if (idx <? 0)%Z then Z.max 0 (n + idx) else Z.min idx n.

(** [np.clip(x, -1.0, 1.0)] and [(x * 32767.0).astype(np.int16)]. *)
Definition clip (x : Q) : Q :=
  if Qle_bool x (-1) then -1 else if Qle_bool 1 x then 1 else x.
Definition quantize (x : Q) : Z := py_int (x * 32767).

(** Elementwise [out += c]. *)
Fixpoint vadd (out c : list Q) : list Q :=
  match out, c with
  | o :: out', x :: c' => (o + x) :: vadd out' c'
  | _, _ => out
  end.

(** ** Construction and control interface *)

(** [SynthEngine(parent, sample_rate, max_voices)]; the stream is started. *)
Definition init_engine (sr mv : Z) : engine :=
  mkEngine sr mv 512 1 [] (2 # 10) (1 # 100) (3 # 100) (mkStream true false).

Section Engine.

(** Python's float power [x ** y]. *)
Variable fpow : Q -> Q -> Q.

Definition note_on (e : engine) (freq_hz : Q) (velocity : Z) : option Z * engine :=
  if (max_voices e <=? Z.of_nat (length (voices e)))%Z then (None, e)
  else
    let vid := next_voice_id e in
    let v := inject_Z (Z.max 0 (Z.min 127 velocity)) / inject_Z 127 in
    let g := fpow v (8 # 10) in
    let attack_samples := Z.max 1 (py_int (attack_sec e * inject_Z (sample_rate e))) in
    let release_samples := Z.max 1 (py_int (release_sec e * inject_Z (sample_rate e))) in
    let a_inc := 1 / inject_Z attack_samples in
    let r_inc := 1 / inject_Z release_samples in
    let vc := mkVoice freq_hz 0 g Attack 0 a_inc r_inc in
    (Some vid, set_next_voices e (vid + 1)%Z (dict_set vid vc (voices e))).

End Engine.

Definition note_off (e : engine) (voice_id : Z) : engine :=
  match dict_get voice_id (voices e) with
  | Some v =>
      match state v with
      | Release => e
      | _ => set_voices e (dict_set voice_id (with_state v Release) (voices e))
      end
  | None => e
  end.

Definition set_voice_freq (e : engine) (voice_id : Z) (freq_hz : Q) : engine :=
  match dict_get voice_id (voices e) with
  | Some v => set_voices e (dict_set voice_id (with_freq v freq_hz) (voices e))
  | None => e
  end.

Definition all_notes_off (e : engine) : engine :=
  set_voices e (map (fun p => (fst p, with_state (snd p) Release)) (voices e)).

(** [stop()]: [dev_ok] tells whether stopping and closing the stream went
    through; when PortAudio raises, the exception is caught and the stream is
    left as it was; the [finally] clause clears the voices in both cases. *)
Definition stop (dev_ok : bool) (e : engine) : engine :=
  let s := if dev_ok then mkStream false true else stream e in
  set_stream_voices e s [].

(** ** The render callback [_render_chunk] *)

(** What the loop body does with one voice: a ['done'] voice is skipped (and
    queued for removal); otherwise the voice adds its contribution [c] to
    [out] and is updated in place; or NumPy raises, after the voice dict has
    been updated to the given value. *)
Inductive vres : Type :=
  | VSkip
  | VOk (c : list Q) (v : voice) (dead : bool)
  | VErr (v : voice).

(** [out[:idx] += ramp[:idx]] and [out[idx:] += tail[idx:]] as one
    contribution vector.  The ramp [env + env_inc * np.arange(idx)] has
    [max 0 idx] entries, the slice [out[:idx]] has [py_stop idx n]; NumPy
    raises (broadcast error) when they differ. *)
Definition split_contrib (ramp tail : Z -> Q) (n idx : Z) : option (list Q) :=
  let s := py_stop idx n in
  if Z.eqb s (Z.max 0 idx)
  then Some (map (fun k => if (k <? s)%Z then ramp k else tail k) (zseq n))
  else None.

Section Render.

(** [np.sin] *)
Variable fsin : Q -> Q.

Definition phase_vector (ph w : Q) (k : Z) : Q := ph + w * inject_Z k.

Definition render_voice (mg two_pi_over_sr : Q) (n : Z) (v : voice) : vres :=
  let w := two_pi_over_sr * freq v in
  match state v with
  | Done => VSkip
  | st =>
      let env_inc :=
        match st with
        | Attack => attack_inc v
        | Release => - release_inc v
        | _ => 0
        end in
      let sine k := fsin (phase_vector (phase v) w k) in
      let ramp k := sine k * (mg * gain v * (env v + env_inc * inject_Z k)) in
      let env_end := env v + env_inc * inject_Z n in
      let '(c, v1, dead) :=
        if qlt_bool 0 env_inc then
          if Qle_bool 1 env_end then
            let transition_idx := py_int ((1 - env v) / env_inc) in
            (split_contrib ramp (fun k => sine k * (mg * gain v * 1)) n transition_idx,
             with_env_state v 1 Sustain, false)
          else (Some (map ramp (zseq n)), with_env v env_end, false)
        else if qlt_bool env_inc 0 then
          if Qle_bool env_end 0 then
            let transition_idx := py_int (env v / Qabs env_inc) in
            (split_contrib ramp (fun _ => 0) n transition_idx,
             with_env_state v 0 Done, true)
          else (Some (map ramp (zseq n)), with_env v env_end, false)
        else (Some (map (fun k => sine k * (mg * gain v * env v)) (zseq n)), v, false) in
      match c with
      | None => VErr v
      | Some c =>
          (* [phase_vector[-1]] raises on an empty block *)
          if (n <=? 0)%Z then VErr v1
          else VOk c (with_phase v1 (np_mod (phase_vector (phase v) w (n - 1)) two_pi)) dead
      end
  end.

(** The loop over [self._voices.items()]: returns whether an exception was
    raised, the accumulator [out], the voice dict as mutated, and
    [dead_voices]. *)
Fixpoint render_loop (mg two_pi_over_sr : Q) (n : Z) (vs : list (Z * voice))
    (out : list Q) (dead : list Z) : bool * list Q * list (Z * voice) * list Z :=
  match vs with
  | [] => (false, out, [], dead)
  | (vid, v) :: rest =>
      match render_voice mg two_pi_over_sr n v with
      | VSkip =>
          let '(err, o, vs', d) := render_loop mg two_pi_over_sr n rest out (dead ++ [vid]) in
          (err, o, (vid, v) :: vs', d)
      | VOk c v' dd =>
          let '(err, o, vs', d) :=
            render_loop mg two_pi_over_sr n rest (vadd out c)
              (if dd then dead ++ [vid] else dead) in
          (err, o, (vid, v') :: vs', d)
      | VErr v' => (true, out, (vid, v') :: rest, dead)
      end
  end.

(** The body of the [try] block up to the mixdown: whether it raised, the
    float accumulator [out] and the engine afterwards (finished voices popped
    only when nothing raised).  [np.zeros(frames)] raises for negative
    [frames] before any voice is touched. *)
Definition render_core (e : engine) (frames : Z) : bool * list Q * engine :=
  if (frames <? 0)%Z then (true, [], e) else
  let out := repeat 0 (Z.to_nat frames) in
  let two_pi_over_sr := 2 * np_pi / inject_Z (sample_rate e) in
  let '(err, o, vs', dead) :=
    render_loop (master_gain e) two_pi_over_sr frames (voices e) out [] in
  if err then (true, o, set_voices e vs')
  else (false, o, set_voices e (fold_left (fun l vid => dict_pop vid l) dead vs')).

(** [_render_chunk]: the int16 block written to [outdata] and the engine. *)
Definition render_chunk (e : engine) (frames : Z) : list Z * engine :=
  let '(err, o, e') := render_core e frames in
  if err then (repeat 0%Z (Z.to_nat frames), e')
  else (map (fun x => quantize (clip x)) o, e').

End Render.

(** ** Sequences of calls on one engine *)

Inductive op : Type :=
  | OpNoteOn (f : Q) (vel : Z)
  | OpNoteOff (vid : Z)
  | OpSetFreq (vid : Z) (f : Q)
  | OpAllNotesOff
  | OpStop (dev_ok : bool)
  | OpRender (frames : Z)
  | OpSetMasterGain (g : Q).

Definition exec_op (fpow : Q -> Q -> Q) (fsin : Q -> Q) (e : engine) (o : op)
    : option Z * engine :=
  match o with
  | OpNoteOn f vel => note_on fpow e f vel
  | OpNoteOff vid => (None, note_off e vid)
  | OpSetFreq vid f => (None, set_voice_freq e vid f)
  | OpAllNotesOff => (None, all_notes_off e)
  | OpStop ok => (None, stop ok e)
  | OpRender n => (None, snd (render_chunk fsin e n))
  | OpSetMasterGain g => (None, set_master_gain e g)
  end.

(** Runs the calls in order; returns the results of the calls that return a
    value (only [note_on] does) and the final engine. *)
Fixpoint run (fpow : Q -> Q -> Q) (fsin : Q -> Q) (e : engine) (ops : list op)
    : list (option Z) * engine :=
  match ops with
  | [] => ([], e)
  | o :: ops' =>
      let '(r, e1) := exec_op fpow fsin e o in
      let '(rs, e2) := run fpow fsin e1 ops' in
      (match o with OpNoteOn _ _ => r :: rs | _ => rs end, e2)
  end.

(** The ids returned by the successful [note_on] calls. *)
Fixpoint somes (l : list (option Z)) : list Z :=
  match l with
  | [] => []
  | Some x :: l' => x :: somes l'
  | None :: l' => somes l'
  end.

End Synth.

Module Audition.

Import Synth.
Open Scope Q_scope.

(** A tuple [(pitch, start, end, velocity)] of [widget.export_notes_seconds()]. *)
Record note : Type := mkNote {
  pitch : Z;
  start : Q;
  end_ : Q;
  velocity : Z
}.

(** [self._active_note_voices : dict[int, list[int]]]. *)
Definition tracking : Type := list (Z * list Z).

(** The calls the scheduler issues on the synth, each with the index of the
    note it is for (note_on) and the value it returned. *)
Inductive call : Type :=
  | CallNoteOn (i : Z) (f : Q) (vel : Z) (res : option Z)
  | CallNoteOff (vid : Z).

Definition mem (i : Z) (l : list Z) : bool := existsb (Z.eqb i) l.

(** [want_active_idxs], iterated in increasing order as [sorted(...)] does. *)
Fixpoint want_from (notes : list note) (i : Z) (t : Q) : list Z :=
  match notes with
  | [] => []
  | n :: ns =>
      if Qle_bool (start n) t && qlt_bool t (end_ n)
      then i :: want_from ns (i + 1)%Z t
      else want_from ns (i + 1)%Z t
  end.

Definition want_active (notes : list note) (t : Q) : list Z := want_from notes 0 t.

(** [note_off] for each voice id, logging the calls. *)
Fixpoint notes_off (e : engine) (vids : list Z) : engine * list call :=
  match vids with
  | [] => (e, [])
  | vid :: vids' =>
      let '(e', cs) := notes_off (note_off e vid) vids' in
      (e', CallNoteOff vid :: cs)
  end.

(** First loop: [for idx in list(self._active_note_voices.keys())]. *)
Fixpoint stop_inactive (want : list Z) (ks : list Z) (e : engine) (tr : tracking)
    : engine * tracking * list call :=
  match ks with
  | [] => (e, tr, [])
  | idx :: ks' =>
      if mem idx want then stop_inactive want ks' e tr
      else
        let vids := match dict_get idx tr with Some l => l | None => [] end in
        let '(e1, cs1) := notes_off e vids in
        let '(e2, tr2, cs2) := stop_inactive want ks' e1 (dict_pop idx tr) in
        (e2, tr2, cs1 ++ cs2)
  end.

Section Scheduler.

Variable fpow : Q -> Q -> Q.
(** [librosa.midi_to_hz] *)
Variable midi_to_hz : Z -> Q.

(** Second loop: [for i in sorted(want_active_idxs)]. *)
Fixpoint start_active (notes : list note) (want : list Z) (e : engine) (tr : tracking)
    : engine * tracking * list call :=
  match want with
  | [] => (e, tr, [])
  | i :: want' =>
      if mem i (dict_keys tr) then start_active notes want' e tr
      else
        let n := nth (Z.to_nat i) notes (mkNote 0 0 0 0) in
        let f := midi_to_hz (pitch n) in
        let '(r, e1) := note_on fpow e f (velocity n) in
        let tr1 := match r with Some vid => dict_set i [vid] tr | None => tr end in
        let '(e2, tr2, cs) := start_active notes want' e1 tr1 in
        (e2, tr2, CallNoteOn i f (velocity n) r :: cs)
  end.

(** [_audition_update_for_time(t_seconds)]. *)
Definition audition_update_for_time (enabled : bool) (notes : list note) (t : Q)
    (e : engine) (tr : tracking) : engine * tracking * list call :=
  if negb enabled then (e, tr, [])
  else
    let want := want_active notes t in
    let '(e1, tr1, cs1) := stop_inactive want (dict_keys tr) e tr in
    let '(e2, tr2, cs2) := start_active notes want e1 tr1 in
    (e2, tr2, cs1 ++ cs2).

End Scheduler.

End Audition.

(** ** Invariants of the voice pool *)

Module Inv.

Import Synth.
Open Scope Q_scope.

(** Every voice id in the pool was handed out before: [_next_voice_id] is
    above all of them. *)
Definition ids_below (e : engine) : Prop :=
  Forall (fun p => (fst p < next_voice_id e)%Z) (voices e).

(** Every voice's ['env'] lies in [0, 1]. *)
Definition env_ok (e : engine) : Prop :=
  Forall (fun p => 0 <= env (snd p) <= 1) (voices e).

(** Every voice's increments are positive. *)
Definition incs_pos (e : engine) : Prop :=
  Forall (fun p => 0 < attack_inc (snd p) /\ 0 < release_inc (snd p)) (voices e).

Definition env_in_unit (p : Z * voice) : Prop := 0 <= env (snd p) <= 1.

Definition pool_size (e : engine) : Z := Z.of_nat (length (voices e)).

(** Every stored phase lies in [0, 2 pi). *)
Definition phases_ok (e : engine) : Prop :=
  Forall (fun p => 0 <= phase (snd p) < two_pi) (voices e).

(** The voice ids of the pool are distinct (a dict has no repeated key). *)
Definition keys_nodup (e : engine) : Prop := NoDup (dict_keys (voices e)).

(** [release_samples] as [note_on] computes it. *)
Definition release_samples (e : engine) : Z :=
  Z.max 1 (py_int (release_sec e * inject_Z (sample_rate e))).

(** Every voice's release step is the one [note_on] gives. *)
Definition release_incs_ok (e : engine) : Prop :=
  Forall (fun p => release_inc (snd p) = 1 / inject_Z (release_samples e)) (voices e).

End Inv.

(** ** Other callers of the synth in [MainWindow] *)

Module Window.

Import Synth Audition.
Open Scope Q_scope.

(** [for idx, vids in list(self._active_note_voices.items()): for vid in vids:
    self._synth.note_off(int(vid))]. *)
Fixpoint stop_all_items (items : tracking) (e : engine) : engine * list call :=
  match items with
  | [] => (e, [])
  | (_, vids) :: rest =>
      let '(e1, cs1) := notes_off e vids in
      let '(e2, cs2) := stop_all_items rest e1 in
      (e2, cs1 ++ cs2)
  end.

(** [_audition_stop_all]: note_off every tracked voice, then
    [self._active_note_voices.clear()]. *)
Definition audition_stop_all (e : engine) (tr : tracking) : engine * tracking * list call :=
  let '(e', cs) := stop_all_items tr e in (e', [], cs).

Section Handlers.

Variable fpow : Q -> Q -> Q.
Variable midi_to_hz : Z -> Q.

(** [_on_audition_toggled(enabled)]; [t] is [self._player.position() / 1000].
    Returns [_audition_enabled], the engine, the tracking map and the calls. *)
Definition on_audition_toggled (enabled : bool) (notes : list note) (t : Q)
    (e : engine) (tr : tracking) : bool * (engine * tracking * list call) :=
  if negb enabled then (false, audition_stop_all e tr)
  else (true, audition_update_for_time fpow midi_to_hz true notes t e tr).

(** Python's [round(x)] on a float: to the nearest integer, ties to even. *)
Definition py_round (x : Q) : Z :=
  let f := Qfloor x in
  let d := x - inject_Z f in
  if qlt_bool d (1 # 2) then f
  else if qlt_bool (1 # 2) d then (f + 1)%Z
  else if Z.even f then f else (f + 1)%Z.

(** [max(1, min(127, int(round(float(self._preview_volume) * 127.0))))]. *)
Definition preview_velocity (pv : Q) : Z := Z.max 1 (Z.min 127 (py_round (pv * 127))).

(** [_on_pitch_preview_started(pitch)]: [drag] is
    [self._drag_preview_voice_id], [pv] is [self._preview_volume]. *)
Definition on_pitch_preview_started (pv : Q) (drag : option Z) (e : engine) (pitch : Z)
    : engine * option Z :=
  let e1 := match drag with Some vid => note_off e vid | None => e end in
  if Qle_bool pv 0 then (e1, None)
  else
    let f := midi_to_hz pitch in
    let '(r, e2) := note_on fpow e1 f (preview_velocity pv) in
    (e2, r).

(** [_on_pitch_preview_updated(pitch)]. *)
Definition on_pitch_preview_updated (pv : Q) (drag : option Z) (e : engine) (pitch : Z)
    : engine * option Z :=
  match drag with
  | None => on_pitch_preview_started pv drag e pitch
  | Some vid => (set_voice_freq e vid (midi_to_hz pitch), drag)
  end.

(** [_on_pitch_preview_ended()]. *)
Definition on_pitch_preview_ended (drag : option Z) (e : engine) : engine * option Z :=
  match drag with
  | Some vid => (note_off e vid, None)
  | None => (e, None)
  end.

(** Python's [min(a, x)] and [max(a, x)] with the constant first: the first
    argument is kept unless the second is strictly smaller (larger). *)
Definition py_min (a x : Q) : Q := if qlt_bool x a then x else a.
Definition py_max (a x : Q) : Q := if qlt_bool a x then x else a.

(** [_on_note_created(pitch, start_frame, end_frame, velocity)]: [hop] is
    [self._hop_length], [sr] is [self._sample_rate] ([0] standing for a falsy
    value, [None] or [0], replaced by 22050).  Returns the engine and, when a
    voice was started, its id with the [QTimer.singleShot] delay in ms after
    which [note_off] is called on it. *)
Definition on_note_created (pv : Q) (hop sr : Z) (e : engine)
    (pitch start_frame end_frame velocity : Z) : engine * option (Z * Z) :=
  if Qle_bool pv 0 then (e, None)
  else
    let f := midi_to_hz pitch in
    let secs_per_frame := inject_Z hop / inject_Z (if Z.eqb sr 0 then 22050 else sr) in
    let dur := py_max (5 # 100) (py_min (6 # 10) (inject_Z (end_frame - start_frame) * secs_per_frame)) in
    let vel := preview_velocity pv in
    let '(r, e1) := note_on fpow e f vel in
    match r with
    | Some vid => (e1, Some (vid, py_int (dur * 1000)))
    | None => (e1, None)
    end.

End Handlers.

(** [nudge_seconds(delta)]: the new player position in ms from the current
    one, [max(0, cur_ms + int(delta * 1000.0))]. *)
Definition nudge_ms (cur_ms : Z) (delta : Q) : Z := Z.max 0 (cur_ms + py_int (delta * 1000)).

(** [_on_audition_volume_changed(value)]: [self._audition_volume =
    max(0.0, min(1.0, float(value) / 100.0))], then
    [self._synth.master_gain = float(self._audition_volume)].  Returns the
    stored volume and the engine (the settings file is not modelled). *)
Definition on_audition_volume_changed (value : Z) (e : engine) : Q * engine :=
  let vol := py_max 0 (py_min 1 (inject_Z value / 100)) in
  (vol, set_master_gain e vol).

End Window.

(** ** Concrete inputs *)

Module Inputs.

Import Synth Audition.
Open Scope Q_scope.

(** Two notes sounding over [0, 1) seconds. *)
Definition ns2 : list note := [mkNote 60 0 1 100; mkNote 62 0 1 100].

(** A voice at the start of its attack, increments of the 44100 Hz engine. *)
Definition v_attack : voice := mkVoice 440 0 1 Attack 0 (1 # 441) (1 # 1323).

(** An engine holding one voice (id 1) that is releasing from level 0.01. *)
Definition e_release : engine :=
  mkEngine 44100 32 512 2 [(1%Z, mkVoice 440 0 1 Release (1 # 100) (1 # 441) (1 # 1323))]
    (2 # 10) (1 # 100) (3 # 100) (mkStream true false).

End Inputs.

Module SynthProofs.

Import Synth Inv.
Open Scope Q_scope.

(** *** Dict lemmas *)

Lemma dict_get_set_same {A} (k : Z) (a : A) l : dict_get k (dict_set k a l) = Some a.
Proof.
  induction l as [|[k' a'] l IH]; simpl.
  - rewrite Z.eqb_refl. reflexivity.
  - destruct (Z.eqb k k') eqn:E; simpl; rewrite ?E; [reflexivity|exact IH].
Qed.

Lemma dict_get_In {A} (k : Z) (a : A) l : dict_get k l = Some a -> In (k, a) l.
Proof.
  induction l as [|[k' a'] l IH]; simpl; [discriminate|].
  destruct (Z.eqb k k') eqn:E; intros H.
  - inversion H; subst. apply Z.eqb_eq in E; subst. left; reflexivity.
  - right; auto.
Qed.

Lemma dict_get_some_key {A} (k : Z) l : (exists a : A, dict_get k l = Some a) -> In k (dict_keys l).
Proof.
  intros [a H]. apply dict_get_In in H. unfold dict_keys.
  apply (in_map fst) in H. exact H.
Qed.

Lemma dict_set_fresh {A} (k : Z) (a : A) l :
  ~ In k (dict_keys l) -> dict_set k a l = l ++ [(k, a)].
Proof.
  induction l as [|[k' a'] l IH]; simpl; intros Hn; [reflexivity|].
  destruct (Z.eqb k k') eqn:E.
  - apply Z.eqb_eq in E; subst. exfalso; apply Hn; left; reflexivity.
  - f_equal. apply IH. intros H; apply Hn; right; exact H.
Qed.

Lemma dict_set_keys_in {A} (k : Z) (a : A) l :
  In k (dict_keys l) -> dict_keys (dict_set k a l) = dict_keys l.
Proof.
  induction l as [|[k' a'] l IH]; simpl; intros Hk; [contradiction|].
  destruct (Z.eqb k k') eqn:E; simpl; [reflexivity|].
  f_equal. apply IH. destruct Hk as [Hk|Hk]; [|exact Hk].
  subst. rewrite Z.eqb_refl in E. discriminate.
Qed.

Lemma dict_set_length_in {A} (k : Z) (a : A) l :
  In k (dict_keys l) -> length (dict_set k a l) = length l.
Proof.
  intros H. rewrite <- (length_map fst (dict_set k a l)), <- (length_map fst l).
  unfold dict_keys in *. f_equal. apply dict_set_keys_in. exact H.
Qed.

Lemma dict_keys_map_snd {A B} (f : A -> B) (l : list (Z * A)) :
  dict_keys (map (fun p => (fst p, f (snd p))) l) = dict_keys l.
Proof. unfold dict_keys. rewrite map_map. reflexivity. Qed.

Lemma dict_pop_not_in {A} (k : Z) (l : list (Z * A)) : ~ In k (dict_keys (dict_pop k l)).
Proof.
  unfold dict_keys, dict_pop. intros H. apply in_map_iff in H.
  destruct H as [[k' a] [Hk Hin]]. simpl in Hk; subst.
  apply filter_In in Hin. destruct Hin as [_ Hb]. simpl in Hb.
  rewrite Z.eqb_refl in Hb. discriminate.
Qed.

Lemma dict_pop_keys_incl {A} (k x : Z) (l : list (Z * A)) :
  In x (dict_keys (dict_pop k l)) -> In x (dict_keys l).
Proof.
  unfold dict_keys, dict_pop. intros H. apply in_map_iff in H.
  destruct H as [p [Hx Hin]]. apply filter_In in Hin. apply in_map_iff.
  exists p; tauto.
Qed.

Lemma dict_pop_length {A} (k : Z) (l : list (Z * A)) : (length (dict_pop k l) <= length l)%nat.
Proof. unfold dict_pop. apply filter_length_le. Qed.

Lemma fold_pop_keys_incl {A} (dead : list Z) (x : Z) : forall l : list (Z * A),
  In x (dict_keys (fold_left (fun l vid => dict_pop vid l) dead l)) -> In x (dict_keys l).
Proof.
  induction dead as [|d dead IH]; simpl; intros l H; [exact H|].
  apply IH in H. apply dict_pop_keys_incl in H. exact H.
Qed.

Lemma fold_pop_removes {A} (dead : list Z) (x : Z) : forall l : list (Z * A),
  In x dead -> ~ In x (dict_keys (fold_left (fun l vid => dict_pop vid l) dead l)).
Proof.
  induction dead as [|d dead IH]; simpl; intros l Hx; [contradiction|].
  destruct Hx as [Hx|Hx].
  - subst. intros H. apply fold_pop_keys_incl in H. apply (dict_pop_not_in x l). exact H.
  - apply IH. exact Hx.
Qed.

Lemma fold_pop_length {A} (dead : list Z) : forall l : list (Z * A),
  (length (fold_left (fun l vid => dict_pop vid l) dead l) <= length l)%nat.
Proof.
  induction dead as [|d dead IH]; simpl; intros l; [lia|].
  specialize (IH (dict_pop d l)). pose proof (dict_pop_length d l). lia.
Qed.

(** *** Frame lemmas for the render callback *)

Lemma render_loop_keys fsin mg tp n : forall vs out dead err o vs' d,
  render_loop fsin mg tp n vs out dead = (err, o, vs', d) -> dict_keys vs' = dict_keys vs.
Proof.
  induction vs as [|[vid v] vs IH]; simpl; intros out dead err o vs' d H.
  - inversion H; reflexivity.
  - destruct (render_voice fsin mg tp n v) as [|c v' dd|v'].
    + destruct (render_loop fsin mg tp n vs out (dead ++ [vid])) as [[[e1 o1] vs1] d1] eqn:E.
      inversion H; subst. simpl. f_equal. eapply IH; exact E.
    + destruct (render_loop fsin mg tp n vs (vadd out c) (if dd then dead ++ [vid] else dead))
        as [[[e1 o1] vs1] d1] eqn:E.
      inversion H; subst. simpl. f_equal. eapply IH; exact E.
    + inversion H; subst. reflexivity.
Qed.

Lemma render_core_frame fsin e n err o e' :
  render_core fsin e n = (err, o, e') ->
  sample_rate e' = sample_rate e /\ max_voices e' = max_voices e /\
  next_voice_id e' = next_voice_id e /\
  (forall x, In x (dict_keys (voices e')) -> In x (dict_keys (voices e))) /\
  (length (voices e') <= length (voices e))%nat.
Proof.
  unfold render_core. intros H.
  destruct (n <? 0)%Z.
  { inversion H; subst. repeat split; auto. }
  destruct (render_loop fsin (master_gain e) (2 * np_pi / inject_Z (sample_rate e)) n
     (voices e) (repeat 0 (Z.to_nat n)) []) as [[[err1 o1] vs1] d1] eqn:E.
  pose proof (render_loop_keys _ _ _ _ _ _ _ _ _ _ _ E) as Hk.
  assert (Hl : length vs1 = length (voices e)).
  { rewrite <- (length_map fst vs1), <- (length_map fst (voices e)).
    unfold dict_keys in Hk. rewrite Hk. reflexivity. }
  destruct err1; inversion H; subst; simpl; repeat split; auto.
  - intros x Hx. rewrite <- Hk. exact Hx.
  - lia.
  - intros x Hx. rewrite <- Hk. apply fold_pop_keys_incl in Hx. exact Hx.
  - pose proof (fold_pop_length d1 vs1). lia.
Qed.

Lemma render_chunk_frame fsin e n :
  let e' := snd (render_chunk fsin e n) in
  sample_rate e' = sample_rate e /\ max_voices e' = max_voices e /\
  next_voice_id e' = next_voice_id e /\
  (forall x, In x (dict_keys (voices e')) -> In x (dict_keys (voices e))) /\
  (length (voices e') <= length (voices e))%nat.
Proof.
  unfold render_chunk.
  destruct (render_core fsin e n) as [[err o] e'] eqn:E.
  apply render_core_frame in E.
  destruct err; exact E.
Qed.

(** *** Frame lemmas for the control calls *)

Lemma note_off_keys e vid : dict_keys (voices (note_off e vid)) = dict_keys (voices e).
Proof.
  unfold note_off. destruct (dict_get vid (voices e)) as [v|] eqn:E; [|reflexivity].
  destruct (state v); try reflexivity; simpl;
    apply dict_set_keys_in, dict_get_some_key; exists v; exact E.
Qed.

Lemma set_voice_freq_keys e vid f : dict_keys (voices (set_voice_freq e vid f)) = dict_keys (voices e).
Proof.
  unfold set_voice_freq. destruct (dict_get vid (voices e)) as [v|] eqn:E; [|reflexivity].
  simpl. apply dict_set_keys_in, dict_get_some_key; exists v; exact E.
Qed.

Lemma length_keys {A} (l1 l2 : list (Z * A)) :
  dict_keys l1 = dict_keys l2 -> length l1 = length l2.
Proof.
  intros H. rewrite <- (length_map fst l1), <- (length_map fst l2). unfold dict_keys in H.
  rewrite H. reflexivity.
Qed.

Lemma note_on_cases fpow e f vel :
  (note_on fpow e f vel = (None, e) /\ (max_voices e <= pool_size e)%Z) \/
  ((pool_size e < max_voices e)%Z /\
   exists vc, note_on fpow e f vel =
     (Some (next_voice_id e),
      set_next_voices e (next_voice_id e + 1)%Z (dict_set (next_voice_id e) vc (voices e)))).
Proof.
  unfold note_on, pool_size.
  destruct (max_voices e <=? Z.of_nat (length (voices e)))%Z eqn:E.
  - left. apply Z.leb_le in E. split; [reflexivity|exact E].
  - right. apply Z.leb_gt in E. split; [exact E|]. eexists. reflexivity.
Qed.

Lemma dict_set_keys_incl {A} (k x : Z) (a : A) l :
  In x (dict_keys (dict_set k a l)) -> In x (dict_keys l) \/ x = k.
Proof.
  induction l as [|[k' a'] l IH]; simpl.
  - intros [H|H]; [right; auto|contradiction].
  - destruct (Z.eqb k k'); simpl; intros [H|H]; auto.
    destruct (IH H); auto.
Qed.

Lemma dict_set_length_le {A} (k : Z) (a : A) l : (length (dict_set k a l) <= S (length l))%nat.
Proof.
  induction l as [|[k' a'] l IH]; simpl; [lia|].
  destruct (Z.eqb k k'); simpl; lia.
Qed.

(** Every call keeps [max_voices], never lowers [_next_voice_id], only adds
    the fresh id [_next_voice_id] to the keys, and grows the pool only when
    it is below capacity, by one. *)
Lemma exec_op_frame fpow fsin e o :
  let e' := snd (exec_op fpow fsin e o) in
  max_voices e' = max_voices e /\ sample_rate e' = sample_rate e /\
  (next_voice_id e <= next_voice_id e')%Z /\
  (forall x, In x (dict_keys (voices e')) ->
             In x (dict_keys (voices e)) \/ (x = next_voice_id e /\ next_voice_id e < next_voice_id e')%Z) /\
  ((pool_size e' <= pool_size e)%Z \/ (pool_size e' <= pool_size e + 1 /\ pool_size e < max_voices e)%Z).
Proof.
  unfold pool_size.
  destruct o as [f vel|vid|vid f| |ok|n|g]; simpl.
  - destruct (note_on_cases fpow e f vel) as [[-> _]|[Hlt [vc ->]]]; simpl.
    + repeat split; try lia. auto.
    + repeat split; try lia.
      * intros x Hx. apply dict_set_keys_incl in Hx. destruct Hx; [left; auto|right; split; lia].
      * right. unfold pool_size in Hlt. pose proof (dict_set_length_le (next_voice_id e) vc (voices e)). lia.
  - pose proof (note_off_keys e vid) as Hk.
    assert (Hf : max_voices (note_off e vid) = max_voices e /\ sample_rate (note_off e vid) = sample_rate e
                 /\ next_voice_id (note_off e vid) = next_voice_id e).
    { unfold note_off. destruct (dict_get vid (voices e)); [destruct (state v)|]; simpl; auto. }
    destruct Hf as [H1 [H2 H3]]. rewrite H1, H2, H3, Hk. rewrite (length_keys _ _ Hk).
    repeat split; auto; lia.
  - pose proof (set_voice_freq_keys e vid f) as Hk.
    assert (Hf : max_voices (set_voice_freq e vid f) = max_voices e
                 /\ sample_rate (set_voice_freq e vid f) = sample_rate e
                 /\ next_voice_id (set_voice_freq e vid f) = next_voice_id e).
    { unfold set_voice_freq. destruct (dict_get vid (voices e)); simpl; auto. }
    destruct Hf as [H1 [H2 H3]]. rewrite H1, H2, H3, Hk. rewrite (length_keys _ _ Hk).
    repeat split; auto; lia.
  - pose proof (dict_keys_map_snd (fun v => with_state v Release) (voices e)) as Hk.
    unfold all_notes_off; simpl. rewrite Hk, length_map. repeat split; auto; lia.
  - repeat split; try lia; simpl; try (intros x []); try (left; lia).
  - destruct (render_chunk_frame fsin e n) as [H1 [H2 [H3 [H4 H5]]]].
    rewrite H1, H2, H3. repeat split; try lia. intros x Hx; left; auto.
  - repeat split; auto; lia.
Qed.

Lemma exec_op_result fpow fsin e o vid :
  fst (exec_op fpow fsin e o) = Some vid ->
  vid = next_voice_id e /\ next_voice_id (snd (exec_op fpow fsin e o)) = (next_voice_id e + 1)%Z.
Proof.
  destruct o as [f vel| | | | | |]; simpl; try discriminate.
  destruct (note_on_cases fpow e f vel) as [[-> _]|[_ [vc ->]]]; simpl; [discriminate|].
  intros H; inversion H; auto.
Qed.

Lemma exec_op_none_next fpow fsin e o :
  fst (exec_op fpow fsin e o) = None ->
  next_voice_id (snd (exec_op fpow fsin e o)) = next_voice_id e.
Proof.
  destruct o as [f vel|vid|vid f| |ok|n|g]; simpl; intros H.
  - destruct (note_on_cases fpow e f vel) as [[E _]|[_ [vc E]]]; rewrite E in *; simpl in *;
      [reflexivity|discriminate].
  - unfold note_off. destruct (dict_get vid (voices e)); [destruct (state v)|]; reflexivity.
  - unfold set_voice_freq. destruct (dict_get vid (voices e)); reflexivity.
  - reflexivity.
  - reflexivity.
  - apply render_chunk_frame.
  - reflexivity.
Qed.

Lemma ids_below_exec fpow fsin e o : ids_below e -> ids_below (snd (exec_op fpow fsin e o)).
Proof.
  unfold ids_below. intros H.
  destruct (exec_op_frame fpow fsin e o) as [_ [_ [Hn [Hk _]]]].
  apply Forall_forall. intros [x v] Hin.
  assert (Hx : In x (dict_keys (voices (snd (exec_op fpow fsin e o))))).
  { apply (in_map fst) in Hin. exact Hin. }
  destruct (Hk x Hx) as [Hx'|[-> Hlt]]; simpl; [|exact Hlt].
  unfold dict_keys in Hx'. apply in_map_iff in Hx'. destruct Hx' as [p [Hp Hinp]].
  rewrite Forall_forall in H. specialize (H p Hinp). simpl in *. lia.
Qed.

(** *** Runs of calls *)

Lemma run_cons fpow fsin e o ops :
  run fpow fsin e (o :: ops) =
  (let '(r, e1) := exec_op fpow fsin e o in
   let '(rs, e2) := run fpow fsin e1 ops in
   (match o with OpNoteOn _ _ => r :: rs | _ => rs end, e2)).
Proof. reflexivity. Qed.

Lemma run_pool_bound fpow fsin ops : forall e,
  (pool_size e <= max_voices e)%Z ->
  (pool_size (snd (run fpow fsin e ops)) <= max_voices e)%Z /\
  max_voices (snd (run fpow fsin e ops)) = max_voices e.
Proof.
  induction ops as [|o ops IH]; intros e He; [simpl; auto|].
  rewrite run_cons.
  destruct (exec_op_frame fpow fsin e o) as [Hm [_ [_ [_ Hs]]]].
  destruct (exec_op fpow fsin e o) as [r e1] eqn:E1. simpl in Hm, Hs.
  destruct (run fpow fsin e1 ops) as [rs e2] eqn:E2. simpl.
  assert (He1 : (pool_size e1 <= max_voices e1)%Z) by (rewrite Hm; lia).
  destruct (IH e1 He1) as [H1 H2]. rewrite E2 in H1, H2. simpl in H1, H2.
  rewrite <- Hm. auto.
Qed.

Lemma run_ids_below fpow fsin ops : forall e,
  ids_below e -> ids_below (snd (run fpow fsin e ops)).
Proof.
  induction ops as [|o ops IH]; intros e He; [exact He|].
  rewrite run_cons.
  pose proof (ids_below_exec fpow fsin e o He) as H1.
  destruct (exec_op fpow fsin e o) as [r e1] eqn:E1. simpl in H1.
  specialize (IH e1 H1). destruct (run fpow fsin e1 ops) as [rs e2]. exact IH.
Qed.

Lemma seq_ids_cons (n : Z) (k : nat) :
  map (fun i => (n + Z.of_nat i)%Z) (seq 0 (S k)) =
  n :: map (fun i => (n + 1 + Z.of_nat i)%Z) (seq 0 k).
Proof.
  simpl. f_equal; [lia|]. rewrite <- seq_shift, map_map. apply map_ext. intros i. lia.
Qed.

Lemma run_ids fpow fsin ops : forall e,
  let '(rs, e') := run fpow fsin e ops in
  somes rs = map (fun i => (next_voice_id e + Z.of_nat i)%Z) (seq 0 (length (somes rs))) /\
  next_voice_id e' = (next_voice_id e + Z.of_nat (length (somes rs)))%Z.
Proof.
  induction ops as [|o ops IH]; intros e; [simpl; split; [reflexivity|lia]|].
  rewrite run_cons.
  assert (Hr : forall r, fst (exec_op fpow fsin e o) = r ->
            forall rs, somes (match o with OpNoteOn _ _ => r :: rs | _ => rs end) = somes (r :: rs)).
  { intros r Hr rs. destruct o; simpl in Hr; subst; reflexivity. }
  pose proof (exec_op_result fpow fsin e o) as Hs.
  pose proof (exec_op_none_next fpow fsin e o) as Hn.
  destruct (exec_op fpow fsin e o) as [r e1] eqn:E1. simpl in Hs, Hn.
  specialize (Hr r eq_refl).
  specialize (IH e1). destruct (run fpow fsin e1 ops) as [rs e2] eqn:E2.
  destruct IH as [IH1 IH2]. rewrite Hr.
  destruct r as [vid|]; cbn [somes length].
  - destruct (Hs vid eq_refl) as [-> Hnx]. rewrite Hnx in IH1, IH2.
    rewrite seq_ids_cons, <- IH1. split; [reflexivity|lia].
  - rewrite (Hn eq_refl) in IH1, IH2. auto.
Qed.

(** *** C1 *)

(** C1: at capacity (the pool holds [max_voices] voices or more) [note_on]
    returns no voice and leaves the engine as it was; from a pool within
    capacity, no sequence of calls (note_on, note_off, retune, all_notes_off,
    stop, render, master gain) makes it exceed [max_voices]; and [note_on]
    never evicts a voice of the pool. *)
Theorem note_on_capacity_bound : forall fpow fsin e f vel ops,
  ids_below e ->
  ((max_voices e <= pool_size e)%Z -> note_on fpow e f vel = (None, e)) /\
  ((pool_size e <= max_voices e)%Z ->
     (pool_size (snd (run fpow fsin e ops)) <= max_voices e)%Z) /\
  (forall p, In p (voices e) -> In p (voices (snd (note_on fpow e f vel)))).
Proof.
  intros fpow fsin e f vel ops Hids. split; [|split].
  - intros H. destruct (note_on_cases fpow e f vel) as [[E _]|[Hlt _]]; [exact E|lia].
  - intros H. apply run_pool_bound. exact H.
  - intros p Hp. destruct (note_on_cases fpow e f vel) as [[-> _]|[_ [vc ->]]]; [exact Hp|].
    simpl. rewrite dict_set_fresh.
    + apply in_or_app. left. exact Hp.
    + intros Hin. unfold dict_keys in Hin. apply in_map_iff in Hin.
      destruct Hin as [q [Hq Hinq]]. unfold ids_below in Hids. rewrite Forall_forall in Hids.
      specialize (Hids q Hinq). lia.
Qed.

(** *** C10 *)

(** C10: a failing [note_on] leaves the engine, and so [_next_voice_id],
    unchanged; along any sequence of calls on a fresh engine, the ids
    returned by the successful [note_on] calls are exactly 1, 2, 3, ... in
    order, and [_next_voice_id] is one above the last of them. *)
Theorem note_on_ids_consecutive : forall fpow fsin sr mv ops,
  (forall e f vel, fst (note_on fpow e f vel) = None -> snd (note_on fpow e f vel) = e) /\
  let '(rs, e') := run fpow fsin (init_engine sr mv) ops in
  somes rs = map (fun i => (1 + Z.of_nat i)%Z) (seq 0 (length (somes rs))) /\
  next_voice_id e' = (1 + Z.of_nat (length (somes rs)))%Z.
Proof.
  intros fpow fsin sr mv ops. split.
  - intros e f vel. destruct (note_on_cases fpow e f vel) as [[-> _]|[_ [vc ->]]]; simpl;
      [reflexivity|discriminate].
  - exact (run_ids fpow fsin ops (init_engine sr mv)).
Qed.

(** *** C7 *)

Lemma py_int_integer (q : Q) (n : Z) : (0 <= n)%Z -> q == inject_Z n -> py_int q = n.
Proof.
  intros Hn Hq. unfold py_int.
  assert (H0 : Qle_bool 0 q = true).
  { apply Qle_bool_iff. rewrite Hq. unfold Qle; simpl. lia. }
  rewrite H0. rewrite Hq. apply Qfloor_Z.
Qed.

(** *** C6 *)

(** C6 (as amended): [stop] empties the pool whether or not releasing the
    device succeeded, and stopping twice is the same as stopping once; right
    after [stop], [note_off], [set_voice_freq] and [all_notes_off] change
    nothing; [note_on] is not gated by [stop]: with [max_voices > 0] it
    still returns the next id and puts under it a fresh voice in [Attack]
    at level 0, the only voice of the pool. *)
Theorem stop_clears_pool : forall fpow e ok ok2 vid f,
  voices (stop ok e) = [] /\
  voices (stop ok2 (stop ok e)) = [] /\
  stop ok (stop ok e) = stop ok e /\
  note_off (stop ok e) vid = stop ok e /\
  set_voice_freq (stop ok e) vid f = stop ok e /\
  all_notes_off (stop ok e) = stop ok e /\
  ((0 < max_voices e)%Z -> forall fr vel,
     fst (note_on fpow (stop ok e) fr vel) = Some (next_voice_id e) /\
     pool_size (snd (note_on fpow (stop ok e) fr vel)) = 1%Z /\
     exists v, voices (snd (note_on fpow (stop ok e) fr vel)) = [(next_voice_id e, v)] /\
       freq v = fr /\ state v = Attack /\ env v = 0 /\ phase v = 0).
Proof.
  intros fpow e ok ok2 vid f.
  do 6 (split; [try reflexivity; destruct ok; reflexivity|]).
  intros Hm fr vel. unfold note_on. simpl.
  destruct (max_voices e <=? 0)%Z eqn:E; [apply Z.leb_le in E; lia|].
  split; [reflexivity|split; [reflexivity|]].
  eexists. split; [reflexivity|repeat split].
Qed.

(** *** Envelope arithmetic *)

Lemma qlt_bool_iff x y : qlt_bool x y = true <-> x < y.
Proof.
  unfold qlt_bool. rewrite negb_true_iff. split; intros H.
  - apply Qnot_le_lt. intros H'. apply Qle_bool_iff in H'. congruence.
  - destruct (Qle_bool y x) eqn:E; [|reflexivity].
    apply Qle_bool_iff in E. exfalso. apply (Qlt_not_le x y); assumption.
Qed.

Lemma qlt_bool_false x y : qlt_bool x y = false -> y <= x.
Proof.
  unfold qlt_bool. rewrite negb_false_iff. apply Qle_bool_iff.
Qed.

Lemma Qle_bool_false x y : Qle_bool x y = false -> y < x.
Proof.
  intros H. apply Qnot_le_lt. intros H'. apply Qle_bool_iff in H'. congruence.
Qed.

Ltac qbool :=
  repeat match goal with
  | H : qlt_bool _ _ = true |- _ => apply qlt_bool_iff in H
  | H : qlt_bool _ _ = false |- _ => apply qlt_bool_false in H
  | H : Qle_bool _ _ = true |- _ => apply Qle_bool_iff in H
  | H : Qle_bool _ _ = false |- _ => apply Qle_bool_false in H
  end.

Lemma inject_Z_nonneg (n : Z) : (0 <= n)%Z -> 0 <= inject_Z n.
Proof. intros H. unfold Qle; simpl. lia. Qed.

Lemma py_int_nonneg (q : Q) : 0 <= q -> py_int q = Qfloor q.
Proof.
  intros H. unfold py_int. apply Qle_bool_iff in H. rewrite H. reflexivity.
Qed.

(** The crossing index [floor(a / b)] of a ramp that covers [a] within [n]
    steps of size [b] lies in [0, n]. *)
Lemma floor_div_bounds (a b : Q) (n : Z) :
  0 <= a -> 0 < b -> a <= b * inject_Z n ->
  0 <= a / b /\ (0 <= Qfloor (a / b) <= n)%Z.
Proof.
  intros Ha Hb Hn.
  assert (H0 : 0 <= a / b) by (apply Qle_shift_div_l; [exact Hb|lra]).
  assert (H1 : a / b <= inject_Z n) by (apply Qle_shift_div_r; [exact Hb|lra]).
  split; [exact H0|split].
  - apply (Qfloor_resp_le 0) in H0. exact H0.
  - apply Qfloor_resp_le in H1. rewrite Qfloor_Z in H1. exact H1.
Qed.

Lemma split_contrib_ok (ramp tail : Z -> Q) (n idx : Z) :
  (0 <= idx <= n)%Z ->
  split_contrib ramp tail n idx =
  Some (map (fun k => if (k <? idx)%Z then ramp k else tail k) (zseq n)).
Proof.
  intros H. unfold split_contrib, py_stop.
  destruct (idx <? 0)%Z eqn:E; [apply Z.ltb_lt in E; lia|].
  rewrite Z.min_l by lia. rewrite Z.max_r by lia. rewrite Z.eqb_refl. reflexivity.
Qed.

Ltac split_ifs :=
  repeat match goal with
  | |- context [if ?b then _ else _] =>
      lazymatch b with
      | context [if _ then _ else _] => fail
      | _ => let E := fresh "E" in destruct b eqn:E
      end
  end.

(** Each branch of the loop body stores an envelope in [0, 1] when it starts
    from one: this is the voice the dict holds afterwards, also when NumPy
    raises. *)
Lemma render_voice_env fsin mg tp n v :
  (0 <= n)%Z -> 0 <= env v <= 1 ->
  match render_voice fsin mg tp n v with
  | VSkip => True
  | VOk _ v' _ => 0 <= env v' <= 1
  | VErr v' => 0 <= env v' <= 1
  end.
Proof.
  intros Hn Hv. pose proof (inject_Z_nonneg n Hn) as Hn'.
  unfold render_voice.
  destruct (state v); [| | |exact I]; cbv beta iota zeta;
    split_ifs; qbool; cbv beta iota zeta;
    match goal with
    | |- context [match ?c with Some _ => _ | None => _ end] => destruct c
    | _ => idtac
    end;
    split_ifs; simpl; try exact Hv; try lra.
  all: first
    [ assert (0 <= attack_inc v * inject_Z n) by (apply Qmult_le_0_compat; lra); lra
    | assert (0 <= (- attack_inc v) * inject_Z n) by (apply Qmult_le_0_compat; lra); lra
    | assert (0 <= release_inc v * inject_Z n) by (apply Qmult_le_0_compat; lra); lra
    | assert (0 <= (- release_inc v) * inject_Z n) by (apply Qmult_le_0_compat; lra); lra ].
Qed.

Lemma attack_idx_bounds (x i : Q) (n : Z) :
  0 <= x <= 1 -> 0 < i -> 1 <= x + i * inject_Z n ->
  py_int ((1 - x) / i) = Qfloor ((1 - x) / i) /\ (0 <= py_int ((1 - x) / i) <= n)%Z.
Proof.
  intros Hx Hi Hn.
  destruct (floor_div_bounds (1 - x) i n) as [H0 H1]; [lra|exact Hi|lra|].
  rewrite py_int_nonneg by exact H0. auto.
Qed.

Lemma release_idx_bounds (x i : Q) (n : Z) :
  0 <= x -> i < 0 -> x + i * inject_Z n <= 0 ->
  py_int (x / Qabs i) = Qfloor (x / Qabs i) /\ (0 <= py_int (x / Qabs i) <= n)%Z.
Proof.
  intros Hx Hi Hn.
  assert (Ha : Qabs i == - i) by (apply Qabs_neg; lra).
  destruct (floor_div_bounds x (Qabs i) n) as [H0 H1]; [exact Hx|rewrite Ha; lra|rewrite Ha; lra|].
  rewrite py_int_nonneg by exact H0. auto.
Qed.

Ltac crossing_contrib :=
  first
    [ rewrite split_contrib_ok by (apply attack_idx_bounds; lra)
    | rewrite split_contrib_ok by (apply release_idx_bounds; lra) ].

(** With a non-empty block and an envelope in [0, 1], the loop body never
    raises: the crossing index lies in [0, n]. *)
Lemma render_voice_no_err fsin mg tp n v :
  (0 < n)%Z -> 0 <= env v <= 1 -> forall v', render_voice fsin mg tp n v <> VErr v'.
Proof.
  intros Hn Hv v'. pose proof (inject_Z_nonneg n ltac:(lia)) as Hn'.
  unfold render_voice.
  destruct (state v); [| | |discriminate]; cbv beta iota zeta;
    split_ifs; qbool; cbv beta iota zeta; try crossing_contrib;
    destruct (n <=? 0)%Z eqn:En; try (apply Z.leb_le in En; lia); discriminate.
Qed.

(** *** C8 *)

Lemma render_loop_env fsin mg tp n : (0 <= n)%Z -> forall vs out dead err o vs' d,
  Forall env_in_unit vs ->
  render_loop fsin mg tp n vs out dead = (err, o, vs', d) -> Forall env_in_unit vs'.
Proof.
  intros Hn. induction vs as [|[vid v] vs IH]; simpl; intros out dead err o vs' d Hf H.
  - inversion H; constructor.
  - inversion Hf as [|? ? Hv Hvs]; subst.
    pose proof (render_voice_env fsin mg tp n v Hn Hv) as Hr.
    destruct (render_voice fsin mg tp n v) as [|c v' dd|v'].
    + destruct (render_loop fsin mg tp n vs out (dead ++ [vid])) as [[[e1 o1] vs1] d1] eqn:E.
      inversion H; subst. constructor; [exact Hv|]. eapply IH; eauto.
    + destruct (render_loop fsin mg tp n vs (vadd out c) (if dd then dead ++ [vid] else dead))
        as [[[e1 o1] vs1] d1] eqn:E.
      inversion H; subst. constructor; [exact Hr|]. eapply IH; eauto.
    + inversion H; subst. constructor; [exact Hr|exact Hvs].
Qed.

Lemma fold_pop_incl {A} (dead : list Z) : forall (l : list (Z * A)) p,
  In p (fold_left (fun l vid => dict_pop vid l) dead l) -> In p l.
Proof.
  induction dead as [|d dead IH]; simpl; intros l p H; [exact H|].
  apply IH in H. unfold dict_pop in H. apply filter_In in H. tauto.
Qed.

Lemma render_core_env fsin e n err o e' :
  env_ok e -> render_core fsin e n = (err, o, e') -> env_ok e'.
Proof.
  unfold render_core, env_ok. intros He H.
  destruct (n <? 0)%Z eqn:En; [inversion H; subst; exact He|].
  apply Z.ltb_ge in En.
  destruct (render_loop fsin (master_gain e) (2 * np_pi / inject_Z (sample_rate e)) n
     (voices e) (repeat 0 (Z.to_nat n)) []) as [[[err1 o1] vs1] d1] eqn:E.
  pose proof (render_loop_env _ _ _ _ En _ _ _ _ _ _ _ He E) as Hf.
  destruct err1; inversion H; subst; simpl; [exact Hf|].
  apply Forall_forall. intros p Hp. apply fold_pop_incl in Hp.
  rewrite Forall_forall in Hf. apply Hf. exact Hp.
Qed.

Lemma dict_set_in {A} (k : Z) (a : A) l p :
  In p (dict_set k a l) -> In p l \/ snd p = a.
Proof.
  induction l as [|[k' a'] l IH]; simpl.
  - intros [H|H]; [subst; right; reflexivity|contradiction].
  - destruct (Z.eqb k k'); simpl; intros [H|H]; subst; auto.
    destruct (IH H); auto.
Qed.

Lemma exec_op_env fpow fsin e o : env_ok e -> env_ok (snd (exec_op fpow fsin e o)).
Proof.
  unfold env_ok. intros He.
  assert (Hset : forall k v', 0 <= env v' <= 1 ->
            Forall env_in_unit (dict_set k v' (voices e))).
  { intros k v' Hv'. apply Forall_forall. intros p Hp.
    destruct (dict_set_in _ _ _ _ Hp) as [Hp'|Hp'].
    - rewrite Forall_forall in He. apply He. exact Hp'.
    - unfold env_in_unit. rewrite Hp'. exact Hv'. }
  assert (Hget : forall k v', dict_get k (voices e) = Some v' -> 0 <= env v' <= 1).
  { intros k v' Hg. apply dict_get_In in Hg. rewrite Forall_forall in He.
    apply (He _ Hg). }
  destruct o as [f vel|vid|vid f| |ok|n|g]; simpl.
  - unfold note_on.
    destruct (max_voices e <=? Z.of_nat (length (voices e)))%Z; [exact He|].
    apply Hset. simpl. lra.
  - unfold note_off. destruct (dict_get vid (voices e)) as [v|] eqn:Hg; [|exact He].
    destruct (state v); try exact He; simpl; apply Hset; apply (Hget _ _ Hg).
  - unfold set_voice_freq. destruct (dict_get vid (voices e)) as [v|] eqn:Hg; [|exact He].
    simpl. apply Hset. apply (Hget _ _ Hg).
  - unfold all_notes_off; simpl. apply Forall_map. eapply Forall_impl; [|exact He].
    intros p Hp. exact Hp.
  - constructor.
  - unfold render_chunk.
    destruct (render_core fsin e n) as [[err o] e'] eqn:E.
    pose proof (render_core_env fsin e n err o e' He E) as H'.
    destruct err; exact H'.
  - exact He.
Qed.

Lemma run_env fpow fsin ops : forall e, env_ok e -> env_ok (snd (run fpow fsin e ops)).
Proof.
  induction ops as [|o ops IH]; intros e He; [exact He|].
  rewrite run_cons.
  pose proof (exec_op_env fpow fsin e o He) as H1.
  destruct (exec_op fpow fsin e o) as [r e1]. simpl in H1.
  specialize (IH e1 H1). destruct (run fpow fsin e1 ops) as [rs e2]. exact IH.
Qed.

(** C8: along any sequence of calls on a fresh engine (note_on, note_off,
    retune, all_notes_off, stop, render blocks from any envelope state,
    master gain), every voice in the pool has its envelope level in [0, 1];
    each call, the render included, keeps this property. *)
Theorem envelope_level_in_unit : forall fpow fsin sr mv ops,
  env_ok (snd (run fpow fsin (init_engine sr mv) ops)) /\
  (forall e o, env_ok e -> env_ok (snd (exec_op fpow fsin e o))).
Proof.
  intros fpow fsin sr mv ops. split.
  - apply run_env. constructor.
  - intros e o. apply exec_op_env.
Qed.

(** *** C2 *)

Lemma attack_crossing fsin mg tp n v :
  (0 < n)%Z -> state v = Attack -> 0 <= env v <= 1 -> 0 < attack_inc v ->
  1 <= env v + attack_inc v * inject_Z n ->
  let w := tp * freq v in
  let idx := Qfloor ((1 - env v) / attack_inc v) in
  (0 <= idx <= n)%Z /\
  render_voice fsin mg tp n v =
  VOk (map (fun k => if (k <? idx)%Z
                     then fsin (phase_vector (phase v) w k) *
                          (mg * gain v * (env v + attack_inc v * inject_Z k))
                     else fsin (phase_vector (phase v) w k) * (mg * gain v * 1)) (zseq n))
      (mkVoice (freq v) (np_mod (phase_vector (phase v) w (n - 1)) two_pi) (gain v)
         Sustain 1 (attack_inc v) (release_inc v))
      false.
Proof.
  intros Hn Hs Hv Hi Hend w idx.
  destruct (attack_idx_bounds (env v) (attack_inc v) n Hv Hi Hend) as [Hpi Hb].
  split; [unfold idx; rewrite <- Hpi; exact Hb|].
  unfold render_voice. rewrite Hs. cbv beta iota zeta.
  assert (E1 : qlt_bool 0 (attack_inc v) = true) by (apply qlt_bool_iff; exact Hi).
  assert (E2 : Qle_bool 1 (env v + attack_inc v * inject_Z n) = true)
    by (apply Qle_bool_iff; exact Hend).
  rewrite E1, E2. cbv beta iota zeta.
  rewrite split_contrib_ok by exact Hb. rewrite Hpi.
  destruct (n <=? 0)%Z eqn:En; [apply Z.leb_le in En; lia|]. reflexivity.
Qed.

Lemma release_crossing fsin mg tp n v :
  (0 < n)%Z -> state v = Release -> 0 <= env v <= 1 -> 0 < release_inc v ->
  env v <= release_inc v * inject_Z n ->
  let w := tp * freq v in
  let idx := Qfloor ((0 - env v) / (- release_inc v)) in
  (0 <= idx <= n)%Z /\
  render_voice fsin mg tp n v =
  VOk (map (fun k => if (k <? idx)%Z
                     then fsin (phase_vector (phase v) w k) *
                          (mg * gain v * (env v + - release_inc v * inject_Z k))
                     else 0) (zseq n))
      (mkVoice (freq v) (np_mod (phase_vector (phase v) w (n - 1)) two_pi) (gain v)
         Done 0 (attack_inc v) (release_inc v))
      true.
Proof.
  intros Hn Hs Hv Hi Hend w idx.
  assert (Hi' : - release_inc v < 0) by lra.
  assert (Hend' : env v + - release_inc v * inject_Z n <= 0) by lra.
  destruct (release_idx_bounds (env v) (- release_inc v) n (proj1 Hv) Hi' Hend') as [Hpi Hb].
  assert (Hidx : Qfloor (env v / Qabs (- release_inc v)) = idx).
  { unfold idx. apply Qfloor_comp. rewrite Qabs_opp, Qabs_pos by lra. field. lra. }
  rewrite Hidx in Hpi.
  split; [rewrite <- Hpi; exact Hb|].
  unfold render_voice. rewrite Hs. cbv beta iota zeta.
  assert (E1 : qlt_bool 0 (- release_inc v) = false)
    by (unfold qlt_bool; apply negb_false_iff, Qle_bool_iff; lra).
  assert (E2 : qlt_bool (- release_inc v) 0 = true) by (apply qlt_bool_iff; exact Hi').
  assert (E3 : Qle_bool (env v + - release_inc v * inject_Z n) 0 = true)
    by (apply Qle_bool_iff; exact Hend').
  rewrite E1, E2, E3. cbv beta iota zeta.
  rewrite split_contrib_ok by exact Hb. rewrite Hpi.
  destruct (n <=? 0)%Z eqn:En; [apply Z.leb_le in En; lia|]. reflexivity.
Qed.

Lemma length_zseq (n : Z) : length (zseq n) = Z.to_nat n.
Proof. unfold zseq. rewrite length_map, length_seq. reflexivity. Qed.

Lemma nth_vadd (i : nat) : forall (l c : list Q),
  length l = length c -> (i < length l)%nat ->
  nth i (vadd l c) 0 = nth i l 0 + nth i c 0.
Proof.
  induction i as [|i IH]; intros [|x l] [|y c] Hl Hi; simpl in *; try lia; auto.
  apply IH; lia.
Qed.

Lemma length_vadd : forall (l c : list Q), length (vadd l c) = length l.
Proof. induction l as [|x l IH]; intros [|y c]; simpl; auto. Qed.

Lemma nth_map_zseq (F : Z -> Q) (n k : Z) :
  (0 <= k < n)%Z -> nth (Z.to_nat k) (map F (zseq n)) 0 = F k.
Proof.
  intros Hk. unfold zseq. rewrite map_map.
  rewrite nth_indep with (d' := F (Z.of_nat 0)) by (rewrite length_map, length_seq; lia).
  rewrite (map_nth (fun x => F (Z.of_nat x))). rewrite seq_nth by lia.
  f_equal. lia.
Qed.

Lemma nth_block (F : Z -> Q) (n k : Z) :
  (0 <= k < n)%Z ->
  nth (Z.to_nat k) (vadd (repeat 0 (Z.to_nat n)) (map F (zseq n))) 0 == F k.
Proof.
  intros Hk. rewrite nth_vadd.
  - rewrite nth_map_zseq by exact Hk. rewrite nth_repeat. ring.
  - rewrite repeat_length, length_map, length_zseq. reflexivity.
  - rewrite repeat_length. lia.
Qed.

(** Scenario A of the spec, on the first block after [note_on(440, 64)]. *)
Lemma scenario_a fpow fsin :
  let e1 := snd (note_on fpow (init_engine 44100 32) 440 64) in
  let w := 2 * np_pi / inject_Z 44100 * 440 in
  let g := fpow (64 # 127) (8 # 10) in
  exists o v,
    render_core fsin e1 512 = (false, o, set_voices e1 [(1%Z, v)]) /\
    length o = 512%nat /\
    (forall k, (0 <= k < 441)%Z ->
       nth (Z.to_nat k) o 0 == fsin (phase_vector 0 w k) * ((2 # 10) * g * (inject_Z k / 441))) /\
    (forall k, (441 <= k < 512)%Z ->
       nth (Z.to_nat k) o 0 == fsin (phase_vector 0 w k) * ((2 # 10) * g)) /\
    state v = Sustain /\ env v = 1.
Proof.
  intros e1 w g.
  set (v1 := mkVoice 440 0 g Attack 0 (1 # 441) (1 # 1323)).
  assert (He1 : e1 = mkEngine 44100 32 512 2 [(1%Z, v1)] (2 # 10) (1 # 100) (3 # 100)
                       (mkStream true false)) by reflexivity.
  destruct (attack_crossing fsin (2 # 10) (2 * np_pi / inject_Z 44100) 512 v1)
    as [_ Hr]; try reflexivity.
  { unfold Qle; simpl; lia. }
  { unfold Qle; simpl; lia. }
  cbv zeta in Hr.
  assert (Hidx : Qfloor ((1 - env v1) / attack_inc v1) = 441%Z) by reflexivity.
  rewrite Hidx in Hr.
  eexists; eexists. split.
  { rewrite He1. unfold render_core. cbn [sample_rate master_gain voices].
    change ((512 <? 0)%Z) with false. cbv iota.
    unfold render_loop. rewrite Hr. reflexivity. }
  split; [rewrite length_vadd, repeat_length; reflexivity|].
  split; [|split; [|split; reflexivity]].
  - intros k Hk. rewrite nth_block by lia.
    destruct (k <? 441)%Z eqn:Ek; [|apply Z.ltb_ge in Ek; lia].
    unfold v1; cbn [phase freq gain env attack_inc]. unfold w. field.
  - intros k Hk. rewrite nth_block by lia.
    destruct (k <? 441)%Z eqn:Ek; [apply Z.ltb_lt in Ek; lia|].
    unfold v1; cbn [phase freq gain env attack_inc]. unfold w. ring.
Qed.

(** C2: in a block of [n > 0] frames, a voice in [Attack] (envelope in
    [0, 1]) whose ramp reaches 1.0 by the end of the block has crossing
    index [idx = floor((1 - env) / attack_inc)] in [0, n]; samples [0, idx)
    carry the ramp, samples [idx, n) full gain, and the voice leaves the
    block in [Sustain] with envelope 1.0; a voice in [Release] whose ramp
    reaches 0.0 has [idx = floor((0 - env) / (- release_inc))], samples
    [0, idx) carry the ramp, samples [idx, n) are silent, and the voice
    leaves in [Done] with envelope 0.0, queued for removal.  Scenario A:
    after [note_on(440, 64)] at 44100 Hz, the first 512-frame block ramps
    samples [0, 441) linearly and renders [441, 512) at full gain, leaving
    the voice in [Sustain] at 1.0. *)
Theorem envelope_transition_in_block : forall fpow fsin mg tp n v,
  (0 < n)%Z -> 0 <= env v <= 1 ->
  (state v = Attack -> 0 < attack_inc v -> 1 <= env v + attack_inc v * inject_Z n ->
   let w := tp * freq v in
   let idx := Qfloor ((1 - env v) / attack_inc v) in
   (0 <= idx <= n)%Z /\
   render_voice fsin mg tp n v =
   VOk (map (fun k => if (k <? idx)%Z
                      then fsin (phase_vector (phase v) w k) *
                           (mg * gain v * (env v + attack_inc v * inject_Z k))
                      else fsin (phase_vector (phase v) w k) * (mg * gain v * 1)) (zseq n))
       (mkVoice (freq v) (np_mod (phase_vector (phase v) w (n - 1)) two_pi) (gain v)
          Sustain 1 (attack_inc v) (release_inc v))
       false) /\
  (state v = Release -> 0 < release_inc v -> env v <= release_inc v * inject_Z n ->
   let w := tp * freq v in
   let idx := Qfloor ((0 - env v) / (- release_inc v)) in
   (0 <= idx <= n)%Z /\
   render_voice fsin mg tp n v =
   VOk (map (fun k => if (k <? idx)%Z
                      then fsin (phase_vector (phase v) w k) *
                           (mg * gain v * (env v + - release_inc v * inject_Z k))
                      else 0) (zseq n))
       (mkVoice (freq v) (np_mod (phase_vector (phase v) w (n - 1)) two_pi) (gain v)
          Done 0 (attack_inc v) (release_inc v))
       true) /\
  (let e1 := snd (note_on fpow (init_engine 44100 32) 440 64) in
   let w := 2 * np_pi / inject_Z 44100 * 440 in
   let g := fpow (64 # 127) (8 # 10) in
   exists o v1,
     render_core fsin e1 512 = (false, o, set_voices e1 [(1%Z, v1)]) /\
     length o = 512%nat /\
     (forall k, (0 <= k < 441)%Z ->
        nth (Z.to_nat k) o 0 == fsin (phase_vector 0 w k) * ((2 # 10) * g * (inject_Z k / 441))) /\
     (forall k, (441 <= k < 512)%Z ->
        nth (Z.to_nat k) o 0 == fsin (phase_vector 0 w k) * ((2 # 10) * g)) /\
     state v1 = Sustain /\ env v1 = 1).
Proof.
  intros fpow fsin mg tp n v Hn Hv. split; [|split].
  - intros Hs Hi Hend. exact (attack_crossing fsin mg tp n v Hn Hs Hv Hi Hend).
  - intros Hs Hi Hend. exact (release_crossing fsin mg tp n v Hn Hs Hv Hi Hend).
  - exact (scenario_a fpow fsin).
Qed.

(** *** C9 *)

Lemma render_loop_no_err fsin mg tp n : (0 < n)%Z -> forall vs out dead err o vs' d,
  Forall env_in_unit vs ->
  render_loop fsin mg tp n vs out dead = (err, o, vs', d) -> err = false.
Proof.
  intros Hn. induction vs as [|[vid v] vs IH]; simpl; intros out dead err o vs' d Hf H.
  - inversion H; reflexivity.
  - inversion Hf as [|? ? Hv Hvs]; subst.
    pose proof (render_voice_no_err fsin mg tp n v Hn Hv) as Hr.
    destruct (render_voice fsin mg tp n v) as [|c v' dd|v'].
    + destruct (render_loop fsin mg tp n vs out (dead ++ [vid])) as [[[e1 o1] vs1] d1] eqn:E.
      inversion H; subst. eapply IH; eauto.
    + destruct (render_loop fsin mg tp n vs (vadd out c) (if dd then dead ++ [vid] else dead))
        as [[[e1 o1] vs1] d1] eqn:E.
      inversion H; subst. eapply IH; eauto.
    + exfalso. exact (Hr v' eq_refl).
Qed.

Lemma render_loop_dead_mono fsin mg tp n : forall vs out dead err o vs' d x,
  render_loop fsin mg tp n vs out dead = (err, o, vs', d) -> In x dead -> In x d.
Proof.
  induction vs as [|[vid v] vs IH]; simpl; intros out dead err o vs' d x H Hx.
  - inversion H; subst; exact Hx.
  - destruct (render_voice fsin mg tp n v) as [|c v' dd|v'].
    + destruct (render_loop fsin mg tp n vs out (dead ++ [vid])) as [[[e1 o1] vs1] d1] eqn:E.
      inversion H; subst. eapply IH; [exact E|]. apply in_or_app; left; exact Hx.
    + destruct (render_loop fsin mg tp n vs (vadd out c) (if dd then dead ++ [vid] else dead))
        as [[[e1 o1] vs1] d1] eqn:E.
      inversion H; subst. eapply IH; [exact E|].
      destruct dd; [apply in_or_app; left|]; exact Hx.
    + inversion H; subst; exact Hx.
Qed.

Lemma render_loop_dead_in fsin mg tp n : forall vs out dead o vs' d vid v c v',
  render_loop fsin mg tp n vs out dead = (false, o, vs', d) ->
  In (vid, v) vs -> render_voice fsin mg tp n v = VOk c v' true -> In vid d.
Proof.
  induction vs as [|[vid0 v0] vs IH]; simpl; intros out dead o vs' d vid v c v' H Hin Hr;
    [contradiction|].
  destruct Hin as [Heq|Hin].
  - inversion Heq; subst. rewrite Hr in H.
    destruct (render_loop fsin mg tp n vs (vadd out c) (dead ++ [vid])) as [[[e1 o1] vs1] d1] eqn:E.
    inversion H; subst. eapply render_loop_dead_mono; [exact E|].
    apply in_or_app; right; left; reflexivity.
  - destruct (render_voice fsin mg tp n v0) as [|c0 v0' dd|v0'].
    + destruct (render_loop fsin mg tp n vs out (dead ++ [vid0])) as [[[e1 o1] vs1] d1] eqn:E.
      inversion H; subst. eapply IH; eauto.
    + destruct (render_loop fsin mg tp n vs (vadd out c0) (if dd then dead ++ [vid0] else dead))
        as [[[e1 o1] vs1] d1] eqn:E.
      inversion H; subst. eapply IH; eauto.
    + discriminate.
Qed.

Lemma run_keeps_absent fpow fsin vid ops : forall e,
  ~ In vid (dict_keys (voices e)) -> (vid < next_voice_id e)%Z ->
  ~ In vid (dict_keys (voices (snd (run fpow fsin e ops)))).
Proof.
  induction ops as [|o ops IH]; intros e Hn Hlt; [exact Hn|].
  rewrite run_cons.
  destruct (exec_op_frame fpow fsin e o) as [_ [_ [Hnx [Hk _]]]].
  destruct (exec_op fpow fsin e o) as [r e1] eqn:E1. simpl in Hnx, Hk.
  specialize (IH e1). destruct (run fpow fsin e1 ops) as [rs e2]. simpl in *.
  apply IH; [|lia].
  intros Hin. destruct (Hk vid Hin) as [H|[H _]]; [exact (Hn H)|lia].
Qed.

(** C9: in a block of [n > 0] frames, a voice in [Release] whose ramp
    reaches 0.0 within the block (envelope at most [release_inc * n]) is
    marked [Done] and popped from the pool before the render call returns;
    since ids are never reused, no later sequence of calls (renders
    included) brings it back, so it is never rendered again.  The pool is
    assumed to satisfy the invariants of every reachable engine: ids below
    [_next_voice_id] and envelopes in [0, 1]. *)
Theorem released_voice_removed : forall fpow fsin e n vid v ops,
  ids_below e -> env_ok e -> (0 < n)%Z ->
  dict_get vid (voices e) = Some v -> state v = Release -> 0 < release_inc v ->
  env v <= release_inc v * inject_Z n ->
  let e' := snd (render_chunk fsin e n) in
  ~ In vid (dict_keys (voices e')) /\
  ~ In vid (dict_keys (voices (snd (run fpow fsin e' ops)))).
Proof.
  intros fpow fsin e n vid v ops Hids Henv Hn Hg Hs Hi Hend e'.
  apply dict_get_In in Hg.
  assert (Hv : 0 <= env v <= 1).
  { unfold env_ok in Henv. rewrite Forall_forall in Henv. exact (Henv _ Hg). }
  destruct (release_crossing fsin (master_gain e) (2 * np_pi / inject_Z (sample_rate e)) n v
              Hn Hs Hv Hi Hend) as [_ Hr].
  assert (Habs : ~ In vid (dict_keys (voices e'))).
  { unfold e', render_chunk, render_core.
    destruct (n <? 0)%Z eqn:En; [apply Z.ltb_lt in En; lia|].
    destruct (render_loop fsin (master_gain e) (2 * np_pi / inject_Z (sample_rate e)) n
                (voices e) (repeat 0 (Z.to_nat n)) []) as [[[err o] vs'] d] eqn:E.
    pose proof (render_loop_no_err _ _ _ _ Hn _ _ _ _ _ _ _ Henv E) as Herr. subst err.
    simpl. apply fold_pop_removes. eapply render_loop_dead_in; [exact E|exact Hg|exact Hr]. }
  split; [exact Habs|].
  apply run_keeps_absent; [exact Habs|].
  destruct (render_chunk_frame fsin e n) as [_ [_ [Hnx _]]]. fold e' in Hnx. rewrite Hnx.
  unfold ids_below in Hids. rewrite Forall_forall in Hids. exact (Hids _ Hg).
Qed.

(** *** C3 *)

Lemma sustain_render fsin mg tp n v :
  (0 < n)%Z -> state v = Sustain ->
  let w := tp * freq v in
  render_voice fsin mg tp n v =
  VOk (map (fun k => fsin (phase_vector (phase v) w k) * (mg * gain v * env v)) (zseq n))
      (with_phase v (np_mod (phase_vector (phase v) w (n - 1)) two_pi)) false.
Proof.
  intros Hn Hs w. unfold render_voice. rewrite Hs. cbv beta iota zeta.
  change (qlt_bool 0 0) with false. cbv iota.
  destruct (n <=? 0)%Z eqn:En; [apply Z.leb_le in En; lia|]. reflexivity.
Qed.

(** C3 (failing input): a sustained 440 Hz voice at phase 0, 44100 Hz,
    rendered for one 512-frame block.  The phase stored for the next block
    is [np.mod(phase_vector[-1], 2 pi)], the phase of the block's last
    sample (index 511) reduced by 5 turns, so the next block's first sample
    repeats the last sample's phase: it is not the last phase advanced by
    one step [w] modulo any number of turns of [2 * np.pi]. *)
Theorem phase_not_advanced_across_blocks : forall fsin,
  let tp := 2 * np_pi / inject_Z 44100 in
  let v0 := mkVoice 440 0 1 Sustain 1 (1 # 441) (1 # 1323) in
  let w := tp * 440 in
  exists c v',
    render_voice fsin (2 # 10) tp 512 v0 = VOk c v' false /\
    phase v' == phase_vector (phase v0) w 511 - inject_Z 5 * two_pi /\
    (forall z : Z,
       ~ (phase_vector (phase v') w 0 == phase_vector (phase v0) w 511 + w + inject_Z z * two_pi)).
Proof.
  intros fsin tp v0 w.
  rewrite (sustain_render fsin (2 # 10) tp 512 v0) by reflexivity.
  eexists; eexists. split; [reflexivity|].
  assert (Hf : Qfloor (phase_vector (phase v0) (tp * freq v0) (512 - 1) / two_pi) = 5%Z)
    by (vm_compute; reflexivity).
  assert (Hp : phase (with_phase v0 (np_mod (phase_vector (phase v0) (tp * freq v0) (512 - 1)) two_pi))
               == phase_vector (phase v0) w 511 - inject_Z 5 * two_pi).
  { cbn [phase with_phase]. unfold np_mod. rewrite Hf. unfold w. cbn [freq v0].
    change (512 - 1)%Z with 511%Z. ring. }
  split; [exact Hp|].
  intros z H. unfold phase_vector at 1 in H. rewrite Hp in H.
  assert (Hw : w == two_pi * (440 # 44100)).
  { unfold w, tp, two_pi. field. }
  unfold phase_vector, v0 in H. cbn [phase] in H. rewrite Hw in H.
  unfold two_pi, np_pi in H.
  change (inject_Z 5) with 5 in H. change (inject_Z 511) with 511 in H.
  change (inject_Z 0) with 0 in H.
  assert (Hz : inject_Z z * 44100 == -5 * 44100 - 440) by lra.
  unfold Qeq in Hz. simpl in Hz. lia.
Qed.

End SynthProofs.

Module AuditionProofs.

Import Synth Inv SynthProofs Audition Inputs.
Open Scope Q_scope.

Lemma mem_In (i : Z) (l : list Z) : mem i l = true <-> In i l.
Proof.
  unfold mem. rewrite existsb_exists. split.
  - intros [x [Hx Hb]]. apply Z.eqb_eq in Hb. subst. exact Hx.
  - intros H. exists i. split; [exact H|apply Z.eqb_refl].
Qed.

Lemma mem_false (i : Z) (l : list Z) : mem i l = false <-> ~ In i l.
Proof.
  rewrite <- mem_In. destruct (mem i l); split; congruence.
Qed.

Lemma dict_get_pop_other {A} (k x : Z) (l : list (Z * A)) :
  x <> k -> dict_get x (dict_pop k l) = dict_get x l.
Proof.
  intros Hne. induction l as [|[k' a] l IH]; simpl; [reflexivity|].
  unfold dict_pop in *. simpl.
  destruct (Z.eqb k k') eqn:E1; simpl.
  - apply Z.eqb_eq in E1. subst. destruct (Z.eqb x k') eqn:E2; [apply Z.eqb_eq in E2; lia|].
    exact IH.
  - destruct (Z.eqb x k'); [reflexivity|exact IH].
Qed.

Lemma dict_get_set_other {A} (k x : Z) (a : A) (l : list (Z * A)) :
  x <> k -> dict_get x (dict_set k a l) = dict_get x l.
Proof.
  intros Hne. induction l as [|[k' a'] l IH]; simpl.
  - destruct (Z.eqb x k) eqn:E; [apply Z.eqb_eq in E; lia|reflexivity].
  - destruct (Z.eqb k k') eqn:E1; simpl.
    + apply Z.eqb_eq in E1. subst. destruct (Z.eqb x k') eqn:E2; [apply Z.eqb_eq in E2; lia|].
      reflexivity.
    + destruct (Z.eqb x k'); [reflexivity|exact IH].
Qed.

Lemma dict_keys_set_iff {A} (k x : Z) (a : A) (l : list (Z * A)) :
  In x (dict_keys (dict_set k a l)) <-> In x (dict_keys l) \/ x = k.
Proof.
  split.
  - apply dict_set_keys_incl.
  - intros [H|H].
    + destruct (Z.eq_dec x k) as [->|Hne].
      * apply dict_get_some_key. exists a. apply dict_get_set_same.
      * unfold dict_keys in H. apply in_map_iff in H. destruct H as [[x' b] [Hx Hin]].
        simpl in Hx. subst x'.
        assert (Hg : exists b', dict_get x l = Some b').
        { clear Hne. induction l as [|[k' c] l IH]; simpl in *; [contradiction|].
          destruct (Z.eqb x k') eqn:E; [eexists; reflexivity|].
          destruct Hin as [Hin|Hin]; [inversion Hin; subst; rewrite Z.eqb_refl in E; discriminate|].
          apply IH; exact Hin. }
        destruct Hg as [b' Hg]. apply dict_get_some_key. exists b'.
        rewrite dict_get_set_other by exact Hne. exact Hg.
    + subst. apply dict_get_some_key. exists a. apply dict_get_set_same.
Qed.

Lemma dict_get_none_keys {A} (x : Z) (l : list (Z * A)) :
  ~ In x (dict_keys l) -> dict_get x l = None.
Proof.
  intros H. destruct (dict_get x l) eqn:E; [|reflexivity].
  exfalso. apply H. apply dict_get_some_key. eexists; exact E.
Qed.

(** *** The first loop *)

Lemma notes_off_spec e vids :
  snd (notes_off e vids) = map CallNoteOff vids /\
  max_voices (fst (notes_off e vids)) = max_voices e /\
  pool_size (fst (notes_off e vids)) = pool_size e /\
  next_voice_id (fst (notes_off e vids)) = next_voice_id e.
Proof.
  revert e. induction vids as [|vid vids IH]; intros e; simpl; [auto|].
  specialize (IH (note_off e vid)).
  destruct (notes_off (note_off e vid) vids) as [e' cs]. simpl in *.
  destruct IH as [H1 [H2 [H3 H4]]]. rewrite H1.
  assert (Hf : max_voices (note_off e vid) = max_voices e /\ next_voice_id (note_off e vid) = next_voice_id e).
  { unfold note_off. destruct (dict_get vid (voices e)); [destruct (state v)|]; simpl; auto. }
  unfold pool_size in *. rewrite (length_keys _ _ (note_off_keys e vid)) in H3.
  destruct Hf. repeat split; congruence.
Qed.

Lemma stop_inactive_spec want ks : forall e tr,
  let '(e1, tr1, cs) := stop_inactive want ks e tr in
  (forall x, In x (dict_keys tr1) -> In x (dict_keys tr) /\ (In x want \/ ~ In x ks)) /\
  (forall x, In x want -> dict_get x tr1 = dict_get x tr) /\
  (forall x l, In x ks -> ~ In x want -> dict_get x tr = Some l ->
     forall vid, In vid l -> In (CallNoteOff vid) cs) /\
  (forall c, In c cs -> exists vid, c = CallNoteOff vid) /\
  max_voices e1 = max_voices e /\ pool_size e1 = pool_size e.
Proof.
  induction ks as [|k ks IH]; intros e tr; simpl.
  - split; [|split; [|split; [|split; [|split]]]]; auto; intros; contradiction.
  - destruct (mem k want) eqn:Ek.
    + specialize (IH e tr). destruct (stop_inactive want ks e tr) as [[e1 tr1] cs].
      destruct IH as [H1 [H2 [H3 [H4 [H5 H6]]]]].
      split; [|split; [|split; [|split; [|split]]]]; auto.
      * intros x Hx. destruct (H1 x Hx) as [Ha [Hb|Hb]]; split; auto.
        destruct (Z.eq_dec x k) as [->|Hne]; [left; apply mem_In; exact Ek|].
        right. intros [Hc|Hc]; [congruence|contradiction].
      * intros x l [Hx|Hx] Hw Hg vid Hv; [subst; apply mem_In in Ek; contradiction|].
        eapply H3; eauto.
    + pose proof (notes_off_spec e (match dict_get k tr with Some l => l | None => [] end)) as Hn.
      destruct (notes_off e (match dict_get k tr with Some l => l | None => [] end)) as [e1 cs1].
      simpl in Hn. destruct Hn as [Hn1 [Hn2 [Hn3 _]]].
      specialize (IH e1 (dict_pop k tr)).
      destruct (stop_inactive want ks e1 (dict_pop k tr)) as [[e2 tr2] cs2].
      destruct IH as [H1 [H2 [H3 [H4 [H5 H6]]]]].
      apply mem_false in Ek.
      split; [|split; [|split; [|split; [|split]]]].
      * intros x Hx. destruct (H1 x Hx) as [Ha Hb]. split; [eapply dict_pop_keys_incl; exact Ha|].
        destruct Hb as [Hb|Hb]; [left; exact Hb|].
        destruct (Z.eq_dec x k) as [->|Hne]; [exfalso; exact (dict_pop_not_in k tr Ha)|].
        right. intros [Hc|Hc]; [congruence|contradiction].
      * intros x Hx. rewrite H2 by exact Hx. apply dict_get_pop_other.
        intros ->. contradiction.
      * intros x l Hx Hw Hg vid Hv. apply in_or_app.
        destruct (Z.eq_dec x k) as [->|Hne].
        -- left. rewrite Hn1, Hg. apply in_map. exact Hv.
        -- right. destruct Hx as [Hx|Hx]; [congruence|].
           eapply H3; eauto. rewrite dict_get_pop_other by exact Hne. exact Hg.
      * intros c Hc. apply in_app_or in Hc. destruct Hc as [Hc|Hc]; [|apply H4; exact Hc].
        rewrite Hn1 in Hc. apply in_map_iff in Hc. destruct Hc as [vid [<- _]]. eauto.
      * congruence.
      * congruence.
Qed.

Lemma stop_inactive_noop want ks : forall e tr,
  (forall k, In k ks -> In k want) -> stop_inactive want ks e tr = (e, tr, []).
Proof.
  induction ks as [|k ks IH]; intros e tr H; simpl; [reflexivity|].
  assert (Hk : mem k want = true) by (apply mem_In, H; left; reflexivity).
  rewrite Hk. apply IH. intros k' Hk'. apply H. right; exact Hk'.
Qed.

(** *** The second loop *)

Lemma filter_untracked_mono (k1 k2 w : list Z) :
  (forall x, In x k1 -> In x k2) ->
  (length (filter (fun i => negb (mem i k2)) w) <= length (filter (fun i => negb (mem i k1)) w))%nat.
Proof.
  intros H. induction w as [|x w IH]; simpl; [lia|].
  destruct (mem x k2) eqn:E2; destruct (mem x k1) eqn:E1; simpl; try lia.
  exfalso. apply mem_false in E2. apply mem_In in E1. apply E2, H, E1.
Qed.

Lemma start_active_spec fpow m2h notes want : forall e tr,
  let '(e2, tr2, cs) := start_active fpow m2h notes want e tr in
  (forall x, In x (dict_keys tr2) <->
     In x (dict_keys tr) \/ exists f vel vid, In (CallNoteOn x f vel (Some vid)) cs) /\
  (forall x, In x (dict_keys tr) -> dict_get x tr2 = dict_get x tr) /\
  (forall c, In c cs -> exists i f vel r,
     c = CallNoteOn i f vel r /\ In i want /\ ~ In i (dict_keys tr)) /\
  (forall i, In i want -> ~ In i (dict_keys tr) -> exists f vel r, In (CallNoteOn i f vel r) cs) /\
  ((pool_size e + Z.of_nat (length (filter (fun i => negb (mem i (dict_keys tr))) want))
      <= max_voices e)%Z ->
   forall i, In i want -> In i (dict_keys tr2)).
Proof.
  induction want as [|i want IH]; intros e tr; simpl.
  - split; [|split; [|split; [|split]]].
    + intros x. split; [intros H; left; exact H|intros [H|[f [vel [vid []]]]]; exact H].
    + reflexivity.
    + intros c [].
    + intros i [].
    + intros _ i [].
  - destruct (mem i (dict_keys tr)) eqn:Ei.
    + specialize (IH e tr). destruct (start_active fpow m2h notes want e tr) as [[e2 tr2] cs].
      destruct IH as [H1 [H2 [H3 [H4 H5]]]].
      split; [|split; [|split; [|split]]].
      * exact H1.
      * exact H2.
      * intros c Hc. destruct (H3 c Hc) as [j [f [vel [r [Hc' [Hj Hn]]]]]].
        exists j, f, vel, r. split; [exact Hc'|split; [right; exact Hj|exact Hn]].
      * intros j [<-|Hj] Hn; [apply mem_In in Ei; contradiction|]. apply H4; assumption.
      * intros Hcap j [<-|Hj].
        -- apply H1. left. apply mem_In. exact Ei.
        -- apply H5; [exact Hcap|exact Hj].
    + set (n := nth (Z.to_nat i) notes (mkNote 0 0 0 0)).
      pose proof (note_on_cases fpow e (m2h (pitch n)) (velocity n)) as Hcases.
      destruct (note_on fpow e (m2h (pitch n)) (velocity n)) as [r e1] eqn:En.
      apply mem_false in Ei.
      assert (Htr1 : forall x, In x (dict_keys tr) ->
                In x (dict_keys (match r with Some vid => dict_set i [vid] tr | None => tr end))).
      { intros x Hx. destruct r; [apply dict_keys_set_iff; left; exact Hx|exact Hx]. }
      cbv zeta.
      match goal with
      |- context [start_active ?a ?b ?c ?d ?e' ?t] =>
          specialize (IH e' t); destruct (start_active a b c d e' t) as [[e2 tr2] cs]
      end.
      cbv beta iota.
      destruct IH as [H1 [H2 [H3 [H4 H5]]]].
      split; [|split; [|split; [|split]]].
      * intros x. rewrite H1. split.
        -- intros [Hx|[f [vel [vid Hc]]]].
           ++ destruct r as [vid|].
              ** apply dict_keys_set_iff in Hx. destruct Hx as [Hx| ->]; [left; exact Hx|].
                 right. exists (m2h (pitch n)), (velocity n), vid. left. reflexivity.
              ** left. exact Hx.
           ++ right. exists f, vel, vid. right. exact Hc.
        -- intros [Hx|[f [vel [vid [Hc|Hc]]]]].
           ++ left. apply Htr1. exact Hx.
           ++ inversion Hc; subst. left. apply dict_keys_set_iff. right. reflexivity.
           ++ right. exists f, vel, vid. exact Hc.
      * intros x Hx. rewrite H2 by (apply Htr1; exact Hx).
        destruct r; [|reflexivity]. apply dict_get_set_other. intros ->. contradiction.
      * intros c [<-|Hc].
        -- exists i, (m2h (pitch n)), (velocity n), r. split; [reflexivity|split; [left; reflexivity|exact Ei]].
        -- destruct (H3 c Hc) as [j [f [vel [r' [Hc' [Hj Hn]]]]]].
           exists j, f, vel, r'. split; [exact Hc'|split; [right; exact Hj|]].
           intros Hin. apply Hn, Htr1, Hin.
      * intros j [<-|Hj] Hn.
        -- exists (m2h (pitch n)), (velocity n), r. left. reflexivity.
        -- destruct (Z.eq_dec j i) as [->|Hne].
           ++ exists (m2h (pitch n)), (velocity n), r. left. reflexivity.
           ++ destruct (H4 j Hj) as [f [vel [r' Hc]]].
              { intros Hin. destruct r; [|contradiction].
                apply dict_keys_set_iff in Hin. destruct Hin; [contradiction|congruence]. }
              exists f, vel, r'. right. exact Hc.
      * intros Hcap. simpl in Hcap.
        assert (Hlt : (pool_size e < max_voices e)%Z) by lia.
        destruct Hcases as [[Hc Hle]|[_ [vc Hc]]]; [lia|].
        injection Hc as Hr He1; subst r e1.
        assert (HZ : forall j, In j want -> In j (dict_keys tr2)).
        { apply H5. unfold pool_size in *. simpl.
          pose proof (dict_set_length_le (next_voice_id e) vc (voices e)) as Hl.
          pose proof (filter_untracked_mono (dict_keys tr)
                        (dict_keys (dict_set i [next_voice_id e] tr)) want
                        (fun x Hx => proj2 (dict_keys_set_iff i x _ tr) (or_introl Hx))) as Hm.
          lia. }
        intros j [<-|Hj]; [|apply HZ; exact Hj].
        apply H1. left. apply dict_keys_set_iff. right. reflexivity.
Qed.

Lemma start_active_noop fpow m2h notes want : forall e tr,
  (forall i, In i want -> In i (dict_keys tr)) ->
  start_active fpow m2h notes want e tr = (e, tr, []).
Proof.
  induction want as [|i want IH]; intros e tr H; simpl; [reflexivity|].
  assert (Hi : mem i (dict_keys tr) = true) by (apply mem_In, H; left; reflexivity).
  rewrite Hi. apply IH. intros j Hj. apply H. right; exact Hj.
Qed.

Lemma dict_keys_get {A} (x : Z) (l : list (Z * A)) :
  In x (dict_keys l) -> exists a, dict_get x l = Some a.
Proof.
  intros H. destruct (dict_get x l) eqn:E; [eexists; reflexivity|].
  exfalso. induction l as [|[k a] l IH]; simpl in *; [contradiction|].
  destruct (Z.eqb x k) eqn:Ek; [discriminate|].
  destruct H as [H|H]; [subst; rewrite Z.eqb_refl in Ek; discriminate|].
  exact (IH H E).
Qed.

Lemma same_get_keys {A} (x : Z) (l1 l2 : list (Z * A)) :
  dict_get x l1 = dict_get x l2 -> In x (dict_keys l2) -> In x (dict_keys l1).
Proof.
  intros Hg Hk. apply dict_keys_get in Hk. destruct Hk as [a Ha].
  apply dict_get_some_key. exists a. congruence.
Qed.

Lemma filter_untracked_ext (k1 k2 w : list Z) :
  (forall x, In x w -> (In x k1 <-> In x k2)) ->
  filter (fun i => negb (mem i k1)) w = filter (fun i => negb (mem i k2)) w.
Proof.
  intros H. apply filter_ext_in. intros x Hx. f_equal.
  destruct (mem x k2) eqn:E2.
  - apply mem_In. apply H; [exact Hx|]. apply mem_In. exact E2.
  - apply mem_false. intros Hin. apply H in Hin; [|exact Hx].
    apply mem_false in E2. contradiction.
Qed.

(** *** One reconciliation *)

Lemma reconcile_spec fpow m2h notes t e tr :
  let '(e', tr', cs) := audition_update_for_time fpow m2h true notes t e tr in
  let A := want_active notes t in
  (forall i, In i (dict_keys tr') -> In i A) /\
  (forall i, In i A -> In i (dict_keys tr) -> dict_get i tr' = dict_get i tr) /\
  (forall i l, ~ In i A -> dict_get i tr = Some l ->
     ~ In i (dict_keys tr') /\ forall vid, In vid l -> In (CallNoteOff vid) cs) /\
  (forall i, In i A -> ~ In i (dict_keys tr) ->
     (exists f vel r, In (CallNoteOn i f vel r) cs) /\
     (In i (dict_keys tr') <-> exists f vel vid, In (CallNoteOn i f vel (Some vid)) cs)) /\
  (forall i f vel r, In (CallNoteOn i f vel r) cs -> In i A /\ ~ In i (dict_keys tr)) /\
  ((pool_size e + Z.of_nat (length (filter (fun i => negb (mem i (dict_keys tr))) A))
      <= max_voices e)%Z ->
   forall i, In i (dict_keys tr') <-> In i A).
Proof.
  unfold audition_update_for_time. cbn [negb].
  set (A := want_active notes t).
  pose proof (stop_inactive_spec A (dict_keys tr) e tr) as HS.
  destruct (stop_inactive A (dict_keys tr) e tr) as [[e1 tr1] cs1].
  destruct HS as [S1 [S2 [S3 [S4 [S5 S6]]]]].
  pose proof (start_active_spec fpow m2h notes A e1 tr1) as HP.
  destruct (start_active fpow m2h notes A e1 tr1) as [[e2 tr2] cs2].
  destruct HP as [P1 [P2 [P3 [P4 P5]]]].
  assert (Hkeep : forall i, In i A -> In i (dict_keys tr) -> In i (dict_keys tr1)).
  { intros i Hi Hk. eapply same_get_keys; [apply S2; exact Hi|exact Hk]. }
  assert (Hbefore : forall i, In i (dict_keys tr1) -> In i A /\ In i (dict_keys tr)).
  { intros i Hi. destruct (S1 i Hi) as [Hk [Ha|Ha]]; [split; assumption|contradiction]. }
  assert (Hoff : forall i f vel r, ~ In (CallNoteOn i f vel r) cs1).
  { intros i f vel r Hc. destruct (S4 _ Hc) as [vid Hv]. discriminate. }
  assert (Hon : forall i f vel r, In (CallNoteOn i f vel r) cs2 -> In i A /\ ~ In i (dict_keys tr1)).
  { intros i f vel r Hc. destruct (P3 _ Hc) as [j [f' [vel' [r' [Hj [HA Hn]]]]]].
    injection Hj as -> _ _ _. split; assumption. }
  assert (Hkeys : forall i, In i (dict_keys tr2) -> In i A).
  { intros i Hi. apply P1 in Hi. destruct Hi as [Hi|[f [vel [vid Hc]]]].
    - apply Hbefore. exact Hi.
    - exact (proj1 (Hon _ _ _ _ Hc)). }
  split; [|split; [|split; [|split; [|split]]]].
  - exact Hkeys.
  - intros i Hi Hk. rewrite P2 by (apply Hkeep; assumption). apply S2. exact Hi.
  - intros i l Hi Hg. split.
    + intros Hk. apply Hi, Hkeys, Hk.
    + intros vid Hv. apply in_or_app. left.
      eapply S3; [apply dict_get_some_key; exists l; exact Hg|exact Hi|exact Hg|exact Hv].
  - intros i Hi Hk.
    assert (Hk1 : ~ In i (dict_keys tr1)) by (intros H; apply Hk, (Hbefore i H)).
    split.
    + destruct (P4 i Hi Hk1) as [f [vel [r Hc]]]. exists f, vel, r.
      apply in_or_app. right. exact Hc.
    + rewrite P1. split.
      * intros [H|[f [vel [vid Hc]]]]; [contradiction|].
        exists f, vel, vid. apply in_or_app. right. exact Hc.
      * intros [f [vel [vid Hc]]]. right. exists f, vel, vid.
        apply in_app_or in Hc. destruct Hc as [Hc|Hc]; [exfalso; exact (Hoff _ _ _ _ Hc)|exact Hc].
  - intros i f vel r Hc. apply in_app_or in Hc.
    destruct Hc as [Hc|Hc]; [exfalso; exact (Hoff _ _ _ _ Hc)|].
    destruct (Hon _ _ _ _ Hc) as [HA Hn]. split; [exact HA|].
    intros Hk. apply Hn, Hkeep; assumption.
  - intros Hcap i. split; [apply Hkeys|]. apply P5.
    rewrite S5, S6.
    rewrite (filter_untracked_ext (dict_keys tr1) (dict_keys tr) A).
    + exact Hcap.
    + intros x Hx. split; [intros H; exact (proj2 (Hbefore x H))|apply Hkeep; exact Hx].
Qed.

(** *** A full pool: the second note is refused *)



(** *** Claims *)



(** C5 (amended). Reconciliation never issues [note_on] for an index that is
    already tracked. A second reconciliation at the same [t] issues no
    [note_off]; each call it issues is a [note_on] for an index of [A(t)]
    that is untracked because its [note_on] in the first reconciliation
    returned no voice, and every index of [A(t)] left untracked by the first
    is issued [note_on] again. So the second issues no call and changes
    nothing exactly when the first left every index of [A(t)] tracked. *)
Theorem reconcile_idempotent fpow m2h notes t e tr :
  let '(e1, tr1, cs1) := audition_update_for_time fpow m2h true notes t e tr in
  let '(e2, tr2, cs2) := audition_update_for_time fpow m2h true notes t e1 tr1 in
  let A := want_active notes t in
  (forall i f vel r, In (CallNoteOn i f vel r) cs1 -> In i A /\ ~ In i (dict_keys tr)) /\
  (forall vid, ~ In (CallNoteOff vid) cs2) /\
  (forall c, In c cs2 -> exists i f vel r,
     c = CallNoteOn i f vel r /\ In i A /\ ~ In i (dict_keys tr1) /\
     exists f' vel', In (CallNoteOn i f' vel' None) cs1) /\
  (forall i, In i A -> ~ In i (dict_keys tr1) -> exists f vel r, In (CallNoteOn i f vel r) cs2) /\
  ((forall i, In i A -> In i (dict_keys tr1)) <-> cs2 = [] /\ e2 = e1 /\ tr2 = tr1).
Proof.
  pose proof (reconcile_spec fpow m2h notes t e tr) as H.
  destruct (audition_update_for_time fpow m2h true notes t e tr) as [[e1 tr1] cs1].
  destruct H as [H1 [H2 [H3 [H4 [H5 H6]]]]].
  unfold audition_update_for_time at 1. cbn [negb].
  set (A := want_active notes t) in *.
  rewrite (stop_inactive_noop A (dict_keys tr1) e1 tr1 H1).
  pose proof (start_active_spec fpow m2h notes A e1 tr1) as HP.
  destruct (start_active fpow m2h notes A e1 tr1) as [[e2 tr2] cs2] eqn:E2.
  destruct HP as [P1 [P2 [P3 [P4 P5]]]].
  cbn [app].
  split; [exact H5|split; [|split; [|split; [exact P4|split]]]].
  - intros vid Hc. destruct (P3 _ Hc) as [i [f [vel [r [Hc' _]]]]]. discriminate.
  - intros c Hc. destruct (P3 _ Hc) as [i [f [vel [r [-> [HA Hn]]]]]].
    exists i, f, vel, r. split; [reflexivity|split; [exact HA|split; [exact Hn|]]].
    assert (Hk : ~ In i (dict_keys tr)).
    { intros Hk. apply Hn. eapply same_get_keys; [apply H2; assumption|exact Hk]. }
    destruct (H4 i HA Hk) as [[f' [vel' [r' Hc']]] Hiff].
    destruct r' as [vid|].
    + exfalso. apply Hn, Hiff. exists f', vel', vid. exact Hc'.
    + exists f', vel'. exact Hc'.
  - intros Hall. rewrite (start_active_noop fpow m2h notes A e1 tr1 Hall) in E2.
    injection E2 as -> -> ->. split; [reflexivity|split; reflexivity].
  - intros [Hnil _] i HA. destruct (in_dec Z.eq_dec i (dict_keys tr1)) as [Hi|Hi]; [exact Hi|].
    destruct (P4 i HA Hi) as [f [vel [r Hc]]]. rewrite Hnil in Hc. destruct Hc.
Qed.

(** C5 (counterexample). Reconciliation is not idempotent: in the setting of
    the C4 counterexample the second reconciliation at the same [t] issues
    [note_on] again for the untracked index 1. *)
Lemma reconcile_idempotent_counterexample :
  let r1 := audition_update_for_time (fun x _ => x) (fun _ => 1) true ns2 (1 # 2)
              (init_engine 44100 1) [] in
  snd (audition_update_for_time (fun x _ => x) (fun _ => 1) true ns2 (1 # 2)
         (fst (fst r1)) (snd (fst r1))) = [CallNoteOn 1 1 100 None].
Proof. vm_compute. reflexivity. Qed.

End AuditionProofs.

(** ** Witnesses and counterexamples of the engine claims *)

Module SynthExamples.

Import Synth Inv SynthProofs Inputs.
Open Scope Q_scope.

(** C1 at an empty engine of capacity 1: three [note_on] calls and a block
    leave at most one voice. *)
Lemma note_on_capacity_bound_witness :
  ids_below (init_engine 44100 1) /\
  (pool_size (snd (run (fun x _ => x) (fun x => x) (init_engine 44100 1)
     [OpNoteOn 440 64; OpNoteOn 220 64; OpRender 512; OpNoteOn 330 64])) <= 1)%Z.
Proof.
  assert (H : ids_below (init_engine 44100 1)) by constructor.
  split; [exact H|].
  apply (note_on_capacity_bound (fun x _ => x) (fun x => x) (init_engine 44100 1) 440 64
           [OpNoteOn 440 64; OpNoteOn 220 64; OpRender 512; OpNoteOn 330 64] H).
  vm_compute. discriminate.
Defined.

(** C2 at a voice starting its attack with 1/441 per sample, in a 512-frame
    block: the crossing index is 441. *)
Lemma envelope_transition_in_block_witness :
  (0 < 512)%Z /\ 0 <= env v_attack <= 1 /\
  (0 <= Qfloor ((1 - env v_attack) / attack_inc v_attack) <= 512)%Z /\
  Qfloor ((1 - env v_attack) / attack_inc v_attack) = 441%Z.
Proof.
  assert (H1 : (0 < 512)%Z) by lia.
  assert (H2 : 0 <= env v_attack <= 1) by (vm_compute; split; discriminate).
  split; [exact H1|split; [exact H2|split; [|vm_compute; reflexivity]]].
  destruct (envelope_transition_in_block (fun x _ => x) (fun x => x) (2 # 10) 1 512 v_attack H1 H2)
    as [HA _].
  destruct (HA eq_refl) as [Hidx _].
  - vm_compute. reflexivity.
  - vm_compute. discriminate.
  - exact Hidx.
Defined.

(** C6 (counterexample). After [stop()] the pool is empty, and a [note_on]
    still allocates a voice: the call is not a no-op. *)
Lemma stop_clears_pool_counterexample :
  pool_size (stop true (init_engine 44100 32)) = 0%Z /\
  fst (note_on (fun x _ => x) (stop true (init_engine 44100 32)) 440 64) = Some 1%Z /\
  pool_size (snd (note_on (fun x _ => x) (stop true (init_engine 44100 32)) 440 64)) = 1%Z.
Proof. vm_compute. split; [reflexivity|split; reflexivity]. Qed.

(** C7 (counterexample). At 22050 Hz, [0.01 * 22050 = 220.5] is truncated to
    220 samples: the attack increment is 1/220, not 1 / 220.5. *)
Lemma note_on_voice_init_counterexample :
  exists v,
    dict_get 1 (voices (snd (note_on (fun x _ => x) (init_engine 22050 32) 440 64))) = Some v /\
    attack_inc v == 1 # 220 /\
    attack_sec (init_engine 22050 32) * inject_Z 22050 == 441 # 2 /\
    ~ (attack_inc v == 1 / (attack_sec (init_engine 22050 32) * inject_Z 22050)).
Proof.
  eexists. split; [vm_compute; reflexivity|].
  split; [vm_compute; reflexivity|split; [vm_compute; reflexivity|]].
  vm_compute. discriminate.
Qed.

(** C9 at an engine with one voice releasing from level 0.01 in steps of
    1/1323: a 512-frame block removes it. *)
Lemma released_voice_removed_witness :
  ids_below e_release /\ env_ok e_release /\
  ~ In 1%Z (dict_keys (voices (snd (render_chunk (fun x => x) e_release 512)))).
Proof.
  assert (H1 : ids_below e_release) by (repeat constructor).
  assert (H2 : env_ok e_release) by (repeat constructor; vm_compute; discriminate).
  split; [exact H1|split; [exact H2|]].
  apply (released_voice_removed (fun x _ => x) (fun x => x) e_release 512 1
           (mkVoice 440 0 1 Release (1 # 100) (1 # 441) (1 # 1323)) [] H1 H2).
  - lia.
  - vm_compute. reflexivity.
  - reflexivity.
  - vm_compute. reflexivity.
  - vm_compute. discriminate.
Defined.

End SynthExamples.

(** ** Further properties of the engine and of its callers *)

Module ExtraProofs.

Import Synth Inv SynthProofs Audition AuditionProofs Window.
Open Scope Q_scope.

(** *** The int16 block *)

Lemma clip_bounds (x : Q) : -1 <= clip x <= 1.
Proof. unfold clip. destruct (Qle_bool x (-1)) eqn:E1; [lra|]. destruct (Qle_bool 1 x) eqn:E2; qbool; lra. Qed.

Lemma py_int_bounds (q : Q) (M : Z) :
  (0 <= M)%Z -> - inject_Z M <= q <= inject_Z M -> (- M <= py_int q <= M)%Z.
Proof.
  intros HM [Hq1 Hq2]. unfold py_int. destruct (Qle_bool 0 q) eqn:E; qbool.
  - split.
    + pose proof (Qfloor_resp_le (inject_Z 0) q E) as E'. rewrite Qfloor_Z in E'. lia.
    + apply Qfloor_resp_le in Hq2. rewrite Qfloor_Z in Hq2. lia.
  - assert (H1 : 0 <= - q) by lra. assert (H2 : - q <= inject_Z M) by lra.
    pose proof (Qfloor_resp_le (inject_Z 0) (- q) H1) as H1'. rewrite Qfloor_Z in H1'.
    apply Qfloor_resp_le in H2. rewrite Qfloor_Z in H2. lia.
Qed.

Lemma quantize_clip_bounds (x : Q) : (-32767 <= quantize (clip x) <= 32767)%Z.
Proof.
  unfold quantize. apply (py_int_bounds _ 32767); [lia|].
  pose proof (clip_bounds x). change (inject_Z 32767) with 32767. lra.
Qed.

Lemma render_loop_out_length fsin mg tp n : forall vs out dead err o vs' d,
  render_loop fsin mg tp n vs out dead = (err, o, vs', d) -> length o = length out.
Proof.
  induction vs as [|[vid v] vs IH]; simpl; intros out dead err o vs' d H.
  - inversion H; reflexivity.
  - destruct (render_voice fsin mg tp n v) as [|c v' dd|v'].
    + destruct (render_loop fsin mg tp n vs out (dead ++ [vid])) as [[[e1 o1] vs1] d1] eqn:E.
      inversion H; subst. eapply IH; exact E.
    + destruct (render_loop fsin mg tp n vs (vadd out c) (if dd then dead ++ [vid] else dead))
        as [[[e1 o1] vs1] d1] eqn:E.
      inversion H; subst. rewrite (IH _ _ _ _ _ _ E). apply length_vadd.
    + inversion H; reflexivity.
Qed.

(** *** Fields a block keeps *)

Lemma render_voice_fields fsin mg tp n v :
  match render_voice fsin mg tp n v with
  | VSkip => state v = Done
  | VOk _ v' _ =>
      freq v' = freq v /\ gain v' = gain v /\ attack_inc v' = attack_inc v /\
      release_inc v' = release_inc v /\
      phase v' = np_mod (phase_vector (phase v) (tp * freq v) (n - 1)) two_pi
  | VErr v' =>
      freq v' = freq v /\ gain v' = gain v /\ attack_inc v' = attack_inc v /\
      release_inc v' = release_inc v /\ phase v' = phase v
  end.
Proof.
  unfold render_voice.
  destruct (state v) eqn:Hs; [| | |reflexivity]; cbv beta iota zeta;
    split_ifs; cbv beta iota zeta;
    match goal with
    | |- context [match ?c with Some _ => _ | None => _ end] => destruct c
    | _ => idtac
    end;
    split_ifs; simpl; repeat split; reflexivity.
Qed.

Lemma np_mod_bounds (x m : Q) : 0 < m -> 0 <= np_mod x m < m.
Proof.
  intros Hm. unfold np_mod.
  set (y := x / m).
  assert (Hx : x == m * y) by (unfold y; field; lra).
  pose proof (Qfloor_le y) as H1. pose proof (Qlt_floor y) as H2.
  rewrite inject_Z_plus in H2. change (inject_Z 1) with 1 in H2.
  set (f := inject_Z (Qfloor y)) in *.
  rewrite Hx.
  assert (H3 : 0 <= m * (y - f)) by (apply Qmult_le_0_compat; lra).
  assert (H4 : m * (y - f) < m * 1).
  { rewrite Qmult_comm, (Qmult_comm m 1). apply Qmult_lt_compat_r; lra. }
  split; [lra|lra].
Qed.

Lemma two_pi_pos : 0 < two_pi.
Proof. unfold two_pi, np_pi. vm_compute. reflexivity. Qed.

(** *** A property of every voice kept by each call *)

Section Preserve.

Variable P : voice -> Prop.

Lemma render_loop_forall fsin mg tp n :
  (forall v, P v -> match render_voice fsin mg tp n v with
                    | VSkip => True | VOk _ v' _ => P v' | VErr v' => P v' end) ->
  forall vs out dead err o vs' d,
  Forall (fun p => P (snd p)) vs ->
  render_loop fsin mg tp n vs out dead = (err, o, vs', d) -> Forall (fun p => P (snd p)) vs'.
Proof.
  intros HP. induction vs as [|[vid v] vs IH]; simpl; intros out dead err o vs' d Hf H.
  - inversion H; constructor.
  - inversion Hf as [|? ? Hv Hvs]; subst. simpl in Hv.
    pose proof (HP v Hv) as Hr.
    destruct (render_voice fsin mg tp n v) as [|c v' dd|v'].
    + destruct (render_loop fsin mg tp n vs out (dead ++ [vid])) as [[[e1 o1] vs1] d1] eqn:E.
      inversion H; subst. constructor; [exact Hv|]. eapply IH; eauto.
    + destruct (render_loop fsin mg tp n vs (vadd out c) (if dd then dead ++ [vid] else dead))
        as [[[e1 o1] vs1] d1] eqn:E.
      inversion H; subst. constructor; [exact Hr|]. eapply IH; eauto.
    + inversion H; subst. constructor; [exact Hr|exact Hvs].
Qed.

Lemma render_chunk_forall fsin e n :
  (forall mg tp v, P v -> match render_voice fsin mg tp n v with
                          | VSkip => True | VOk _ v' _ => P v' | VErr v' => P v' end) ->
  Forall (fun p => P (snd p)) (voices e) ->
  Forall (fun p => P (snd p)) (voices (snd (render_chunk fsin e n))).
Proof.
  intros HP He. unfold render_chunk, render_core.
  destruct (n <? 0)%Z; [exact He|].
  destruct (render_loop fsin (master_gain e) (2 * np_pi / inject_Z (sample_rate e)) n
     (voices e) (repeat 0 (Z.to_nat n)) []) as [[[err1 o1] vs1] d1] eqn:E.
  pose proof (render_loop_forall _ _ _ _ (HP _ _) _ _ _ _ _ _ _ He E) as Hf.
  destruct err1; simpl; [exact Hf|].
  apply Forall_forall. intros p Hp. apply fold_pop_incl in Hp.
  rewrite Forall_forall in Hf. apply Hf. exact Hp.
Qed.

Lemma forall_dict_set (k : Z) (a : voice) l :
  Forall (fun p => P (snd p)) l -> P a -> Forall (fun p => P (snd p)) (dict_set k a l).
Proof.
  intros Hl Ha. apply Forall_forall. intros p Hp.
  destruct (dict_set_in k a l p Hp) as [H|H]; [rewrite Forall_forall in Hl; exact (Hl p H)|].
  rewrite H. exact Ha.
Qed.

Lemma forall_get (k : Z) (v : voice) l :
  Forall (fun p => P (snd p)) l -> dict_get k l = Some v -> P v.
Proof.
  intros Hl Hg. apply dict_get_In in Hg. rewrite Forall_forall in Hl. exact (Hl _ Hg).
Qed.

(** Every call but [note_on] keeps [P] when [P] survives a block and a change
    of state or frequency. *)
Lemma exec_op_forall fpow fsin e o :
  (forall n mg tp v, P v -> match render_voice fsin mg tp n v with
                            | VSkip => True | VOk _ v' _ => P v' | VErr v' => P v' end) ->
  (forall v st, P v -> P (with_state v st)) ->
  (forall v f, P v -> P (with_freq v f)) ->
  (forall f vel, Forall (fun p => P (snd p)) (voices (snd (note_on fpow e f vel)))) ->
  Forall (fun p => P (snd p)) (voices e) ->
  Forall (fun p => P (snd p)) (voices (snd (exec_op fpow fsin e o))).
Proof.
  intros Hr Hs Hf Hon He.
  destruct o as [f vel|vid|vid f| |ok|n|g]; simpl.
  - apply Hon.
  - unfold note_off. destruct (dict_get vid (voices e)) as [v|] eqn:Eg; [|exact He].
    destruct (state v); simpl; try exact He;
      apply forall_dict_set; [exact He|apply Hs; eapply forall_get; eauto
                             |exact He|apply Hs; eapply forall_get; eauto
                             |exact He|apply Hs; eapply forall_get; eauto].
  - unfold set_voice_freq. destruct (dict_get vid (voices e)) as [v|] eqn:Eg; [|exact He].
    simpl. apply forall_dict_set; [exact He|apply Hf; eapply forall_get; eauto].
  - simpl. rewrite Forall_map. simpl. rewrite Forall_forall in *. intros p Hp. apply Hs, He, Hp.
  - constructor.
  - apply render_chunk_forall; [intros; apply Hr; assumption|exact He].
  - exact He.
Qed.

End Preserve.

(** X1. [_render_chunk] always writes exactly [frames] int16 samples (none
    when [frames] is negative), each in [-32767, 32767]: the mix is clipped
    to [-1, 1] before scaling, and a block whose rendering raises is written
    as silence.  This holds for any master gain, voice pool or frequencies. *)
Theorem render_chunk_pcm_range fsin e frames :
  let pcm := fst (render_chunk fsin e frames) in
  length pcm = Z.to_nat frames /\ Forall (fun s => (-32767 <= s <= 32767)%Z) pcm /\
  (fst (fst (render_core fsin e frames)) = true -> pcm = repeat 0%Z (Z.to_nat frames)).
Proof.
  unfold render_chunk, render_core.
  assert (Hz : Forall (fun s => (-32767 <= s <= 32767)%Z) (repeat 0%Z (Z.to_nat frames))).
  { apply Forall_forall. intros x Hx. apply repeat_spec in Hx. lia. }
  destruct (frames <? 0)%Z eqn:En.
  - simpl. split; [apply repeat_length|split; [exact Hz|intros _; reflexivity]].
  - destruct (render_loop fsin (master_gain e) (2 * np_pi / inject_Z (sample_rate e)) frames
       (voices e) (repeat 0 (Z.to_nat frames)) []) as [[[err1 o1] vs1] d1] eqn:E.
    pose proof (render_loop_out_length _ _ _ _ _ _ _ _ _ _ _ E) as Hl.
    rewrite repeat_length in Hl.
    destruct err1; simpl.
    + split; [apply repeat_length|split; [exact Hz|intros _; reflexivity]].
    + split; [rewrite length_map; exact Hl|split; [|intros Hf; discriminate Hf]].
      apply Forall_forall. intros x Hx. apply in_map_iff in Hx.
      destruct Hx as [y [<- _]]. apply quantize_clip_bounds.
Qed.

Lemma render_voice_phase fsin mg tp n v :
  0 <= phase v < two_pi ->
  match render_voice fsin mg tp n v with
  | VSkip => True | VOk _ v' _ => 0 <= phase v' < two_pi | VErr v' => 0 <= phase v' < two_pi
  end.
Proof.
  intros Hv. pose proof (render_voice_fields fsin mg tp n v) as H.
  destruct (render_voice fsin mg tp n v) as [|c v' dd|v']; [exact I| |].
  - destruct H as [_ [_ [_ [_ ->]]]]. apply np_mod_bounds, two_pi_pos.
  - destruct H as [_ [_ [_ [_ ->]]]]. exact Hv.
Qed.

Lemma exec_op_phases fpow fsin e o : phases_ok e -> phases_ok (snd (exec_op fpow fsin e o)).
Proof.
  unfold phases_ok. intros He.
  apply (exec_op_forall (fun v => 0 <= phase v < two_pi)); try assumption.
  - intros n mg tp v Hv. apply render_voice_phase. exact Hv.
  - intros v st Hv. exact Hv.
  - intros v f Hv. exact Hv.
  - intros f vel. unfold note_on.
    destruct (max_voices e <=? Z.of_nat (length (voices e)))%Z; [exact He|].
    simpl. apply (forall_dict_set (fun v => 0 <= phase v < two_pi)); [exact He|].
    simpl. pose proof two_pi_pos. lra.
Qed.

Lemma run_phases fpow fsin ops : forall e, phases_ok e -> phases_ok (snd (run fpow fsin e ops)).
Proof.
  induction ops as [|o ops IH]; intros e He; [exact He|].
  rewrite run_cons. pose proof (exec_op_phases fpow fsin e o He) as H1.
  destruct (exec_op fpow fsin e o) as [r e1]. simpl in H1.
  specialize (IH e1 H1). destruct (run fpow fsin e1 ops) as [rs e2]. exact IH.
Qed.

(** X2. Every stored phase stays in [0, 2 pi): [note_on] starts it at 0,
    every block stores [np.mod(..., 2 * np.pi)], and every other call, also a
    block that raises, leaves it as it was.  So it holds after any sequence
    of calls on a new engine, and each call keeps it. *)
Theorem voice_phase_normalized : forall fpow fsin sr mv ops,
  phases_ok (snd (run fpow fsin (init_engine sr mv) ops)) /\
  (forall e o, phases_ok e -> phases_ok (snd (exec_op fpow fsin e o))).
Proof.
  intros fpow fsin sr mv ops. split.
  - apply run_phases. constructor.
  - apply exec_op_phases.
Qed.

Lemma dict_set_set {A} (k : Z) (a b : A) l : dict_set k a (dict_set k b l) = dict_set k a l.
Proof.
  induction l as [|[k' c] l IH]; simpl.
  - rewrite Z.eqb_refl. reflexivity.
  - destruct (Z.eqb k k') eqn:E; simpl; rewrite E; [reflexivity|rewrite IH; reflexivity].
Qed.

Lemma with_state_same v : state v = Release -> with_state v Release = v.
Proof. destruct v; simpl; intros ->; reflexivity. Qed.

(** X3. [note_off(vid)] changes nothing but the entry [vid]: the other
    entries, the keys and every other attribute stay; the entry [vid], when
    there is one, is the same voice in state [Release]; a missing id is a
    no-op; and a second [note_off] on the same id changes nothing. *)
Theorem note_off_frame e vid :
  note_off e vid = set_voices e (voices (note_off e vid)) /\
  (forall x, x <> vid -> dict_get x (voices (note_off e vid)) = dict_get x (voices e)) /\
  dict_get vid (voices (note_off e vid)) =
    option_map (fun v => with_state v Release) (dict_get vid (voices e)) /\
  dict_keys (voices (note_off e vid)) = dict_keys (voices e) /\
  (dict_get vid (voices e) = None -> note_off e vid = e) /\
  note_off (note_off e vid) vid = note_off e vid.
Proof.
  split; [|split; [|split; [|split; [|split]]]].
  - unfold note_off. destruct (dict_get vid (voices e)) as [v|]; [destruct (state v)|];
      destruct e; reflexivity.
  - intros x Hx. unfold note_off. destruct (dict_get vid (voices e)) as [v|]; [|reflexivity].
    destruct (state v); simpl; try reflexivity; apply dict_get_set_other; exact Hx.
  - unfold note_off. destruct (dict_get vid (voices e)) as [v|] eqn:E; [|simpl; rewrite E; reflexivity].
    destruct (state v) eqn:Es; simpl; try (rewrite dict_get_set_same; reflexivity).
    rewrite E. simpl. rewrite with_state_same by exact Es. reflexivity.
  - apply note_off_keys.
  - intros H. unfold note_off. rewrite H. reflexivity.
  - destruct (dict_get vid (voices e)) as [v|] eqn:E.
    + destruct (state v) eqn:Es;
        [| |assert (H1 : note_off e vid = e) by (unfold note_off; rewrite E, Es; reflexivity);
               rewrite !H1; reflexivity|];
        assert (H1 : note_off e vid = set_voices e (dict_set vid (with_state v Release) (voices e)))
          by (unfold note_off; rewrite E, Es; reflexivity);
        rewrite H1; unfold note_off at 1; simpl; rewrite dict_get_set_same; reflexivity.
    + assert (H1 : note_off e vid = e) by (unfold note_off; rewrite E; reflexivity).
      rewrite !H1. reflexivity.
Qed.

(** X4. [set_voice_freq(vid, f)] changes nothing but the [freq] of the entry
    [vid]: the other entries, the keys and the other attributes stay, a
    missing id is a no-op, the last retune wins, and retuning commutes with
    [note_off], so a voice can be retuned while it releases. *)
Theorem set_voice_freq_frame e vid f f2 :
  set_voice_freq e vid f = set_voices e (voices (set_voice_freq e vid f)) /\
  (forall x, x <> vid -> dict_get x (voices (set_voice_freq e vid f)) = dict_get x (voices e)) /\
  dict_get vid (voices (set_voice_freq e vid f)) =
    option_map (fun v => with_freq v f) (dict_get vid (voices e)) /\
  dict_keys (voices (set_voice_freq e vid f)) = dict_keys (voices e) /\
  (dict_get vid (voices e) = None -> set_voice_freq e vid f = e) /\
  set_voice_freq (set_voice_freq e vid f) vid f2 = set_voice_freq e vid f2 /\
  note_off (set_voice_freq e vid f) vid = set_voice_freq (note_off e vid) vid f.
Proof.
  split; [|split; [|split; [|split; [|split; [|split]]]]].
  - unfold set_voice_freq. destruct (dict_get vid (voices e)); destruct e; reflexivity.
  - intros x Hx. unfold set_voice_freq. destruct (dict_get vid (voices e)); [|reflexivity].
    apply dict_get_set_other; exact Hx.
  - unfold set_voice_freq. destruct (dict_get vid (voices e)) as [v|] eqn:E; simpl.
    + apply dict_get_set_same.
    + rewrite E. reflexivity.
  - apply set_voice_freq_keys.
  - intros H. unfold set_voice_freq. rewrite H. reflexivity.
  - unfold set_voice_freq. destruct (dict_get vid (voices e)) as [v|] eqn:E; simpl.
    + rewrite dict_get_set_same. simpl. rewrite dict_set_set. reflexivity.
    + rewrite E. reflexivity.
  - unfold note_off, set_voice_freq. destruct (dict_get vid (voices e)) as [v|] eqn:E; simpl.
    + rewrite dict_get_set_same. destruct (state v) eqn:Es; simpl; rewrite ?Es;
        try (rewrite dict_get_set_same, !dict_set_set; reflexivity).
      rewrite E. reflexivity.
    + rewrite E. reflexivity.
Qed.

Lemma note_on_some fpow e f vel vid e' :
  note_on fpow e f vel = (Some vid, e') ->
  vid = next_voice_id e /\ next_voice_id e' = (vid + 1)%Z /\
  (forall x, x <> vid -> dict_get x (voices e') = dict_get x (voices e)) /\
  exists v, dict_get vid (voices e') = Some v /\ freq v = f /\ state v = Attack /\ env v = 0 /\
    gain v = fpow (inject_Z (Z.max 0 (Z.min 127 vel)) / inject_Z 127) (8 # 10).
Proof.
  unfold note_on. destruct (max_voices e <=? Z.of_nat (length (voices e)))%Z; [discriminate|].
  intros H. injection H as <- <-. simpl. split; [reflexivity|split; [reflexivity|split]].
  - intros x Hx. apply dict_get_set_other. exact Hx.
  - eexists. split; [apply dict_get_set_same|]. simpl. auto.
Qed.

Lemma note_on_none fpow e f vel e' :
  note_on fpow e f vel = (None, e') -> e' = e /\ (max_voices e <= pool_size e)%Z.
Proof.
  unfold note_on, pool_size. destruct (max_voices e <=? Z.of_nat (length (voices e)))%Z eqn:E.
  - intros H. injection H as <-. apply Z.leb_le in E. auto.
  - discriminate.
Qed.

Lemma note_off_get_same e vid :
  dict_get vid (voices (note_off e vid)) = option_map (fun v => with_state v Release) (dict_get vid (voices e)).
Proof.
  unfold note_off. destruct (dict_get vid (voices e)) as [v|] eqn:E; [|simpl; rewrite E; reflexivity].
  destruct (state v) eqn:Es; simpl; try (rewrite dict_get_set_same; reflexivity).
  rewrite E. simpl. rewrite with_state_same by exact Es. reflexivity.
Qed.

Lemma note_off_get_other e vid x :
  x <> vid -> dict_get x (voices (note_off e vid)) = dict_get x (voices e).
Proof.
  intros Hx. unfold note_off. destruct (dict_get vid (voices e)) as [v|]; [|reflexivity].
  destruct (state v); simpl; try reflexivity; apply dict_get_set_other; exact Hx.
Qed.

Lemma note_off_fields e vid :
  next_voice_id (note_off e vid) = next_voice_id e /\ max_voices (note_off e vid) = max_voices e /\
  pool_size (note_off e vid) = pool_size e.
Proof.
  unfold pool_size. rewrite (length_keys _ _ (note_off_keys e vid)).
  unfold note_off. destruct (dict_get vid (voices e)) as [v|]; [destruct (state v)|]; simpl; auto.
Qed.

Lemma set_voice_freq_get_same e vid f :
  dict_get vid (voices (set_voice_freq e vid f)) = option_map (fun v => with_freq v f) (dict_get vid (voices e)).
Proof.
  unfold set_voice_freq. destruct (dict_get vid (voices e)) as [v|] eqn:E; simpl.
  - apply dict_get_set_same.
  - rewrite E. reflexivity.
Qed.

Lemma preview_started_some fpow m2h pv drag e pitch e2 vid :
  on_pitch_preview_started fpow m2h pv drag e pitch = (e2, Some vid) ->
  vid = next_voice_id e /\
  exists v, dict_get vid (voices e2) = Some v /\ freq v = m2h pitch /\ state v = Attack /\ env v = 0.
Proof.
  unfold on_pitch_preview_started.
  set (e1 := match drag with Some vid => note_off e vid | None => e end).
  assert (He1 : next_voice_id e1 = next_voice_id e)
    by (unfold e1; destruct drag; [apply note_off_fields|reflexivity]).
  destruct (Qle_bool pv 0); [discriminate|].
  destruct (note_on fpow e1 (m2h pitch) (preview_velocity pv)) as [r e3] eqn:Hn.
  intros H. injection H as -> ->.
  destruct (note_on_some _ _ _ _ _ _ Hn) as [Hv [_ [_ [v [Hg [Hf [Hs [He _]]]]]]]].
  split; [congruence|]. exists v. auto.
Qed.

(** X5. [_on_pitch_preview_started(pitch)] first sends [note_off] to the
    previous preview voice, which is then releasing (it is never replaced by
    the new voice, whose id is fresh); with the preview volume at or below 0
    it stops there, starting nothing and keeping the pool size; when
    [note_on] returns no id (volume above 0) the pool was full; when it
    returns an id, that is the next id and its voice is in attack at
    [midi_to_hz(pitch)] from level 0. *)
Theorem pitch_preview_started_spec fpow m2h pv drag e pitch :
  ids_below e ->
  let '(e2, d) := on_pitch_preview_started fpow m2h pv drag e pitch in
  (forall old v, drag = Some old -> dict_get old (voices e) = Some v ->
     dict_get old (voices e2) = Some (with_state v Release)) /\
  (pv <= 0 -> d = None /\ pool_size e2 = pool_size e) /\
  (0 < pv -> d = None -> (max_voices e <= pool_size e)%Z) /\
  (forall vid, d = Some vid -> vid = next_voice_id e /\
     exists v, dict_get vid (voices e2) = Some v /\ freq v = m2h pitch /\ state v = Attack /\ env v = 0).
Proof.
  intros Hids.
  destruct (on_pitch_preview_started fpow m2h pv drag e pitch) as [e2 d] eqn:Hst.
  set (e1 := match drag with Some vid => note_off e vid | None => e end).
  assert (He1 : next_voice_id e1 = next_voice_id e /\ max_voices e1 = max_voices e /\
                pool_size e1 = pool_size e)
    by (unfold e1; destruct drag; [apply note_off_fields|auto]).
  assert (Hold : forall old v, drag = Some old -> dict_get old (voices e) = Some v ->
            dict_get old (voices e1) = Some (with_state v Release) /\ (old < next_voice_id e)%Z).
  { intros old v -> Hg. split.
    - unfold e1. rewrite note_off_get_same, Hg. reflexivity.
    - apply dict_get_In in Hg. unfold ids_below in Hids. rewrite Forall_forall in Hids.
      exact (Hids _ Hg). }
  unfold on_pitch_preview_started in Hst. fold e1 in Hst.
  destruct (Qle_bool pv 0) eqn:Hpv.
  - injection Hst as <- <-. qbool.
    split; [intros old v Hd Hg; apply (Hold old v Hd Hg)|].
    split; [intros _; split; [reflexivity|apply He1]|].
    split; [intros Hp; lra|]. intros vid Hv; discriminate.
  - qbool. destruct (note_on fpow e1 (m2h pitch) (preview_velocity pv)) as [r e3] eqn:Hn.
    injection Hst as <- <-. destruct r as [vid|].
    + destruct (note_on_some _ _ _ _ _ _ Hn) as [Hv [_ [Hoth [v [Hg [Hf [Hs [He _]]]]]]]].
      split.
      { intros old w Hd Hgw. destruct (Hold old w Hd Hgw) as [H1 H2].
        rewrite Hoth by lia. exact H1. }
      split; [intros Hp; lra|]. split; [intros _ Hd; discriminate|].
      intros vid' Hd. injection Hd as <-. split; [lia|]. exists v. auto.
    + destruct (note_on_none _ _ _ _ _ Hn) as [-> Hfull].
      split; [intros old w Hd Hgw; apply (Hold old w Hd Hgw)|].
      split; [intros Hp; lra|]. split; [intros _ _; lia|]. intros vid Hd; discriminate.
Qed.

(** X6. A whole drag, [_on_pitch_preview_started(p1)], then
    [_on_pitch_preview_updated(p2)], then [_on_pitch_preview_ended()], leaves
    no preview id behind; the pool size is not changed by the end of the
    drag; and the voice the drag holds, whether started at [p1] and retuned
    or started by the update, sounds at [midi_to_hz(p2)] and is releasing. *)
Theorem pitch_preview_drag_lifecycle fpow m2h pv drag e p1 p2 :
  let '(e1, d1) := on_pitch_preview_started fpow m2h pv drag e p1 in
  let '(e2, d2) := on_pitch_preview_updated fpow m2h pv d1 e1 p2 in
  let '(e3, d3) := on_pitch_preview_ended d2 e2 in
  d3 = None /\ pool_size e3 = pool_size e2 /\
  (forall vid, d2 = Some vid ->
     exists v, dict_get vid (voices e3) = Some v /\ freq v = m2h p2 /\ state v = Release).
Proof.
  destruct (on_pitch_preview_started fpow m2h pv drag e p1) as [e1 d1] eqn:H1.
  destruct d1 as [vid1|].
  - simpl. split; [reflexivity|split; [apply note_off_fields|]].
    intros vid Hv. injection Hv as <-.
    destruct (preview_started_some _ _ _ _ _ _ _ _ H1) as [_ [v [Hg [_ [_ _]]]]].
    exists (with_state (with_freq v (m2h p2)) Release).
    rewrite note_off_get_same, set_voice_freq_get_same, Hg. simpl. auto.
  - simpl. destruct (on_pitch_preview_started fpow m2h pv None e1 p2) as [e2 d2] eqn:H2.
    destruct d2 as [vid2|]; simpl.
    + split; [reflexivity|split; [apply note_off_fields|]].
      intros vid Hv. injection Hv as <-.
      destruct (preview_started_some _ _ _ _ _ _ _ _ H2) as [_ [v [Hg [Hf _]]]].
      exists (with_state v Release). rewrite note_off_get_same, Hg. simpl. auto.
    + split; [reflexivity|split; [reflexivity|]]. intros vid Hv; discriminate.
Qed.

Lemma preview_velocity_range pv : (1 <= preview_velocity pv <= 127)%Z.
Proof. unfold preview_velocity. lia. Qed.

Lemma py_int_floor_range (q : Q) (a b : Z) :
  (0 <= a)%Z -> inject_Z a <= q -> q <= inject_Z b -> (a <= py_int q <= b)%Z.
Proof.
  intros Ha Hl Hu. rewrite py_int_nonneg.
  2:{ apply Qle_trans with (inject_Z a); [apply inject_Z_nonneg; exact Ha|exact Hl]. }
  split.
  - pose proof (Qfloor_resp_le _ _ Hl) as H. rewrite Qfloor_Z in H. exact H.
  - pose proof (Qfloor_resp_le _ _ Hu) as H. rewrite Qfloor_Z in H. exact H.
Qed.

Lemma preview_dur_range (x : Q) :
  5 # 100 <= py_max (5 # 100) (py_min (6 # 10) x) <= 6 # 10.
Proof.
  unfold py_max, py_min.
  destruct (qlt_bool x (6 # 10)) eqn:E1; qbool;
  destruct (qlt_bool (5 # 100) _) eqn:E2; qbool; lra.
Qed.

(** X7. [_on_note_created] previews the new note only when the preview
    volume is above 0; its own [velocity] argument is never used; a started
    voice gets the next id, the note's pitch, state attack and the gain of
    the preview-volume velocity (a value in [1, 127]); its [note_off] is
    scheduled after 50 to 600 ms; when no voice starts the engine is left
    as it was. *)
Theorem note_created_preview fpow m2h pv hop sr e pitch sf ef vel vel2 :
  let '(e1, r) := on_note_created fpow m2h pv hop sr e pitch sf ef vel in
  on_note_created fpow m2h pv hop sr e pitch sf ef vel2 = (e1, r) /\
  (pv <= 0 -> e1 = e /\ r = None) /\
  (r = None -> e1 = e) /\
  (forall vid ms, r = Some (vid, ms) ->
     vid = next_voice_id e /\ (50 <= ms <= 600)%Z /\ (1 <= preview_velocity pv <= 127)%Z /\
     exists v, dict_get vid (voices e1) = Some v /\ freq v = m2h pitch /\ state v = Attack /\
       gain v = fpow (inject_Z (preview_velocity pv) / inject_Z 127) (8 # 10)).
Proof.
  unfold on_note_created.
  destruct (Qle_bool pv 0) eqn:Hpv.
  - split; [reflexivity|]. split; [auto|]. split; [auto|]. intros vid ms H; discriminate.
  - qbool.
    match goal with |- context [py_int (?d * 1000)] => set (dur := d) end.
    destruct (note_on fpow e (m2h pitch) (preview_velocity pv)) as [r e1] eqn:Hn.
    destruct r as [vid|].
    + split; [reflexivity|]. split; [intros; lra|]. split; [intros H; discriminate|].
      intros vid' ms H. injection H as <- <-.
      destruct (note_on_some _ _ _ _ _ _ Hn) as [Hv [_ [_ [v [Hg [Hf [Hs [_ Hgain]]]]]]]].
      pose proof (preview_velocity_range pv) as Hr.
      split; [exact Hv|]. split.
      { pose proof (preview_dur_range
          (inject_Z (ef - sf) * (inject_Z hop / inject_Z (if (sr =? 0)%Z then 22050%Z else sr))))
          as Hd. fold dur in Hd.
        apply py_int_floor_range; [lia| |];
          [change (inject_Z 50) with (50 # 1)|change (inject_Z 600) with (600 # 1)]; lra. }
      split; [exact Hr|]. exists v. split; [exact Hg|]. split; [exact Hf|]. split; [exact Hs|].
      rewrite Hgain. do 2 f_equal. f_equal. lia.
    + destruct (note_on_none _ _ _ _ _ Hn) as [-> _].
      split; [reflexivity|]. split; [intros; lra|]. split; [auto|]. intros vid ms H; discriminate.
Qed.

Lemma py_int_comp (q q' : Q) : q == q' -> py_int q = py_int q'.
Proof.
  intros H. unfold py_int.
  destruct (Qle_bool 0 q) eqn:E1, (Qle_bool 0 q') eqn:E2; qbool.
  - apply Qfloor_comp. exact H.
  - lra.
  - lra.
  - f_equal. apply Qfloor_comp. rewrite H. reflexivity.
Qed.

Lemma py_int_opp (q : Q) : py_int (- q) = (- py_int q)%Z.
Proof.
  unfold py_int.
  destruct (Qle_bool 0 q) eqn:E1, (Qle_bool 0 (- q)) eqn:E2; qbool.
  - assert (Hq : q == inject_Z 0) by (unfold inject_Z; lra).
    assert (Hq' : - q == inject_Z 0) by (unfold inject_Z; lra).
    rewrite (Qfloor_comp _ _ Hq), (Qfloor_comp _ _ Hq'), Qfloor_Z. reflexivity.
  - f_equal. apply Qfloor_comp. apply Qopp_involutive.
  - lia.
  - lra.
Qed.

(** X8. [nudge_seconds(delta)] followed by [nudge_seconds(-delta)] returns
    the player to the position it started from, as long as the first nudge
    was not clamped at 0: [int] truncates towards zero, so it is odd and the
    two offsets cancel. *)
Theorem nudge_round_trip (cur : Z) (d : Q) :
  (0 <= cur)%Z -> (0 <= cur + py_int (d * 1000))%Z ->
  nudge_ms (nudge_ms cur d) (- d) = cur.
Proof.
  intros Hc Hs. unfold nudge_ms.
  rewrite (py_int_comp (- d * 1000) (- (d * 1000))) by ring.
  rewrite py_int_opp. lia.
Qed.

(** *** Draining released voices *)

Lemma run_app fpow fsin l1 : forall e l2,
  snd (run fpow fsin e (l1 ++ l2)) = snd (run fpow fsin (snd (run fpow fsin e l1)) l2).
Proof.
  induction l1 as [|o l1 IH]; intros e l2; [reflexivity|].
  simpl app. rewrite !run_cons.
  destruct (exec_op fpow fsin e o) as [r e1].
  specialize (IH e1 l2).
  destruct (run fpow fsin e1 (l1 ++ l2)) as [rs e2]. destruct (run fpow fsin e1 l1) as [rs' e2'].
  simpl in *. exact IH.
Qed.

Lemma run_cons_snd fpow fsin e o ops :
  snd (run fpow fsin e (o :: ops)) = snd (run fpow fsin (snd (exec_op fpow fsin e o)) ops).
Proof.
  rewrite run_cons. destruct (exec_op fpow fsin e o) as [r e1].
  simpl. destruct (run fpow fsin e1 ops). reflexivity.
Qed.

Lemma release_step fsin mg tp n v :
  (0 < n)%Z -> state v = Release -> 0 < release_inc v ->
  release_inc v * inject_Z n < env v ->
  exists c v', render_voice fsin mg tp n v = VOk c v' false /\
    state v' = Release /\ env v' = env v + - release_inc v * inject_Z n /\
    release_inc v' = release_inc v.
Proof.
  intros Hn Hs Hi Hend.
  unfold render_voice. rewrite Hs. cbv beta iota zeta.
  assert (E1 : qlt_bool 0 (- release_inc v) = false)
    by (unfold qlt_bool; apply negb_false_iff, Qle_bool_iff; lra).
  assert (E2 : qlt_bool (- release_inc v) 0 = true) by (apply qlt_bool_iff; lra).
  assert (E3 : Qle_bool (env v + - release_inc v * inject_Z n) 0 = false).
  { destruct (Qle_bool (env v + - release_inc v * inject_Z n) 0) eqn:E; [|reflexivity].
    apply Qle_bool_iff in E. lra. }
  rewrite E1, E2, E3.
  destruct (n <=? 0)%Z eqn:En; [apply Z.leb_le in En; lia|].
  do 2 eexists. split; [reflexivity|]. simpl. rewrite Hs. auto.
Qed.

Lemma render_loop_origin fsin mg tp n : forall vs out dead o vs' d,
  render_loop fsin mg tp n vs out dead = (false, o, vs', d) ->
  forall p', In p' vs' -> exists p, In p vs /\ fst p = fst p' /\
    ((render_voice fsin mg tp n (snd p) = VSkip /\ snd p' = snd p) \/
     exists c dd, render_voice fsin mg tp n (snd p) = VOk c (snd p') dd).
Proof.
  induction vs as [|[vid v] vs IH]; simpl; intros out dead o vs' d H p' Hp'.
  - inversion H; subst. contradiction.
  - destruct (render_voice fsin mg tp n v) as [|c v' dd|v'] eqn:Er.
    + destruct (render_loop fsin mg tp n vs out (dead ++ [vid])) as [[[e1 o1] vs1] d1] eqn:E.
      inversion H; subst. destruct Hp' as [<-|Hp'].
      * exists (vid, v). simpl. auto.
      * destruct (IH _ _ _ _ _ E p' Hp') as [p [Hp Hq]]. exists p. auto.
    + destruct (render_loop fsin mg tp n vs (vadd out c) (if dd then dead ++ [vid] else dead))
        as [[[e1 o1] vs1] d1] eqn:E.
      inversion H; subst. destruct Hp' as [<-|Hp'].
      * exists (vid, v). simpl. split; [auto|split; [reflexivity|]]. right. eauto.
      * destruct (IH _ _ _ _ _ E p' Hp') as [p [Hp Hq]]. exists p. auto.
    + discriminate.
Qed.

Lemma fold_pop_in_not_dead {A} (dead : list Z) (l : list (Z * A)) p :
  In p (fold_left (fun l vid => dict_pop vid l) dead l) -> ~ In (fst p) dead.
Proof.
  intros Hp Hd. apply (fold_pop_removes dead (fst p) l Hd).
  apply (in_map fst) in Hp. exact Hp.
Qed.

Lemma inject_Z_S (k : nat) : inject_Z (Z.of_nat (S k)) == inject_Z (Z.of_nat k) + 1.
Proof. rewrite Nat2Z.inj_succ, <- Z.add_1_r, inject_Z_plus. reflexivity. Qed.

Lemma inject_Z_of_nat_nonneg (k : nat) : 0 <= inject_Z (Z.of_nat k).
Proof. apply inject_Z_nonneg. lia. Qed.

Section Drain.

(** The voices whose ids satisfy [S] are followed through the blocks. *)
Variable S : Z -> Prop.
Variable fsin : Q -> Q.
Variable n : Z.
Variable r : Q.
Hypothesis Hn : (0 < n)%Z.
Hypothesis Hr : 0 < r.

Lemma drain_block (k : nat) e :
  env_ok e ->
  Forall (fun p => S (fst p) -> state (snd p) = Release /\ release_inc (snd p) = r /\
            env (snd p) <= r * inject_Z n * inject_Z (Z.of_nat (Datatypes.S k))) (voices e) ->
  env_ok (snd (render_chunk fsin e n)) /\
  Forall (fun p => S (fst p) -> state (snd p) = Release /\ release_inc (snd p) = r /\
            0 < env (snd p) /\ env (snd p) <= r * inject_Z n * inject_Z (Z.of_nat k))
         (voices (snd (render_chunk fsin e n))).
Proof.
  intros Henv Hf.
  set (tp := 2 * np_pi / inject_Z (sample_rate e)).
  assert (Henv' : env_ok (snd (render_chunk fsin e n))).
  { unfold render_chunk. destruct (render_core fsin e n) as [[err o] e'] eqn:E.
    pose proof (render_core_env fsin e n err o e' Henv E). destruct err; assumption. }
  split; [exact Henv'|].
  unfold render_chunk, render_core.
  destruct (n <? 0)%Z eqn:En; [apply Z.ltb_lt in En; lia|]. fold tp.
  destruct (render_loop fsin (master_gain e) tp n (voices e) (repeat 0 (Z.to_nat n)) [])
    as [[[err o] vs'] d] eqn:E.
  pose proof (render_loop_no_err _ _ _ _ Hn _ _ _ _ _ _ _ Henv E) as Herr. subst err.
  simpl. apply Forall_forall. intros p' Hp' HS.
  pose proof (fold_pop_in_not_dead _ _ _ Hp') as Hnd.
  apply fold_pop_incl in Hp'.
  destruct (render_loop_origin _ _ _ _ _ _ _ _ _ _ E p' Hp') as [p [Hp [Hk Hcase]]].
  unfold env_ok in Henv. rewrite Forall_forall in Hf, Henv.
  destruct (Hf p Hp) as [Hs [Hi He]]; [rewrite Hk; exact HS|].
  pose proof (Henv p Hp) as Hu. simpl in Hu.
  pose proof (inject_Z_S k) as HSk.
  destruct (Qlt_le_dec (release_inc (snd p) * inject_Z n) (env (snd p))) as [Hgt|Hle].
  - destruct (release_step fsin (master_gain e) tp n (snd p) Hn Hs (ltac:(rewrite Hi; exact Hr)) Hgt)
      as [c [v' [Hrv [Hs' [He' Hi']]]]].
    assert (Hv' : snd p' = v').
    { destruct Hcase as [[Hsk _]|[c' [dd Hok]]]; rewrite Hrv in *; [discriminate|].
      injection Hok as _ <- _. reflexivity. }
    rewrite Hv'. split; [exact Hs'|split; [congruence|]].
    rewrite He', Hi. rewrite Hi in Hgt.
    assert (He2 : env (snd p) <= r * inject_Z n * inject_Z (Z.of_nat k) + r * inject_Z n).
    { rewrite HSk in He. setoid_replace (r * inject_Z n * inject_Z (Z.of_nat k) + r * inject_Z n)
        with (r * inject_Z n * (inject_Z (Z.of_nat k) + 1)) by ring. exact He. }
    split; lra.
  - exfalso. apply Hnd. rewrite <- Hk.
    destruct (release_crossing fsin (master_gain e) tp n (snd p) Hn Hs Hu (ltac:(rewrite Hi; exact Hr)) Hle)
      as [_ Hrv].
    destruct p as [vid v]. eapply render_loop_dead_in; [exact E|exact Hp|exact Hrv].
Qed.

Lemma drain_runs fpow (k : nat) : forall e,
  env_ok e ->
  Forall (fun p => S (fst p) -> state (snd p) = Release /\ release_inc (snd p) = r /\
            env (snd p) <= r * inject_Z n * inject_Z (Z.of_nat (Datatypes.S k))) (voices e) ->
  Forall (fun p => ~ S (fst p))
    (voices (snd (run fpow fsin e (repeat (OpRender n) (Datatypes.S k))))).
Proof.
  induction k as [|k IH]; intros e Henv Hf.
  - destruct (drain_block 0 e Henv Hf) as [_ Hf'].
    simpl. apply Forall_forall. intros p Hp HS. rewrite Forall_forall in Hf'.
    destruct (Hf' p Hp HS) as [_ [_ [H1 H2]]]. simpl in H2. rewrite Qmult_0_r in H2. lra.
  - destruct (drain_block (Datatypes.S k) e Henv Hf) as [Henv' Hf'].
    change (repeat (OpRender n) (Datatypes.S (Datatypes.S k)))
      with (OpRender n :: repeat (OpRender n) (Datatypes.S k)).
    rewrite run_cons_snd. apply (IH (snd (render_chunk fsin e n)) Henv').
    eapply Forall_impl; [|exact Hf']. intros p H HS. destruct (H HS) as [H1 [H2 [_ H4]]]. auto.
Qed.

End Drain.

(** Invariants of every engine reached from [SynthEngine(sr, mv)]. *)

Lemma exec_op_params fpow fsin e o :
  release_sec (snd (exec_op fpow fsin e o)) = release_sec e /\
  sample_rate (snd (exec_op fpow fsin e o)) = sample_rate e.
Proof.
  destruct o as [f vel|vid|vid f| |ok|m|g]; simpl.
  - unfold note_on. destruct (max_voices e <=? Z.of_nat (length (voices e)))%Z; auto.
  - unfold note_off. destruct (dict_get vid (voices e)) as [v|]; [destruct (state v)|]; auto.
  - unfold set_voice_freq. destruct (dict_get vid (voices e)); auto.
  - auto.
  - auto.
  - unfold render_chunk, render_core. destruct (m <? 0)%Z; [auto|].
    destruct (render_loop fsin (master_gain e) (2 * np_pi / inject_Z (sample_rate e)) m (voices e)
      (repeat 0 (Z.to_nat m)) []) as [[[err o] vs'] d]. destruct err; auto.
  - auto.
Qed.

Lemma nodup_pop {A} (k : Z) (l : list (Z * A)) :
  NoDup (dict_keys l) -> NoDup (dict_keys (dict_pop k l)).
Proof.
  induction l as [|[k' a] l IH]; intros H; [constructor|].
  inversion H as [|? ? Hn Hl]; subst.
  unfold dict_pop in *. simpl. destruct (negb (Z.eqb k k')); simpl; [|apply IH; exact Hl].
  constructor; [|apply IH; exact Hl].
  intros Hin. apply Hn. apply (dict_pop_keys_incl k). exact Hin.
Qed.

Lemma nodup_fold_pop {A} (dead : list Z) : forall (l : list (Z * A)),
  NoDup (dict_keys l) -> NoDup (dict_keys (fold_left (fun l vid => dict_pop vid l) dead l)).
Proof.
  induction dead as [|x dead IH]; simpl; intros l H; [exact H|].
  apply IH. apply nodup_pop. exact H.
Qed.

Lemma nodup_set {A} (k : Z) (a : A) l : NoDup (dict_keys l) -> NoDup (dict_keys (dict_set k a l)).
Proof.
  intros H. destruct (in_dec Z.eq_dec k (dict_keys l)) as [Hin|Hnin].
  - rewrite dict_set_keys_in by exact Hin. exact H.
  - rewrite dict_set_fresh by exact Hnin. unfold dict_keys in *. rewrite map_app. simpl.
    clear a. induction l as [|[k' b] l IH]; simpl in *; [constructor; [intros []|constructor]|].
    inversion H as [|? ? Hn1 Hl1]; subst. constructor.
    + rewrite in_app_iff. intros [Hx|[Hx|[]]]; [exact (Hn1 Hx)|apply Hnin; left; auto].
    + apply IH; [exact Hl1|]. intros Hx. apply Hnin. right. exact Hx.
Qed.

Lemma exec_op_nodup fpow fsin e o : keys_nodup e -> keys_nodup (snd (exec_op fpow fsin e o)).
Proof.
  unfold keys_nodup. intros H.
  destruct o as [f vel|vid|vid f| |ok|m|g]; simpl.
  - unfold note_on. destruct (max_voices e <=? Z.of_nat (length (voices e)))%Z; [exact H|].
    apply nodup_set. exact H.
  - rewrite note_off_keys. exact H.
  - rewrite set_voice_freq_keys. exact H.
  - pose proof (dict_keys_map_snd (fun v => with_state v Release) (voices e)) as Hk.
    unfold all_notes_off. simpl in *. rewrite Hk. exact H.
  - constructor.
  - unfold render_chunk, render_core. destruct (m <? 0)%Z; [exact H|].
    destruct (render_loop fsin (master_gain e) (2 * np_pi / inject_Z (sample_rate e)) m (voices e)
      (repeat 0 (Z.to_nat m)) []) as [[[err o] vs'] d] eqn:E.
    pose proof (render_loop_keys _ _ _ _ _ _ _ _ _ _ _ E) as Hk.
    destruct err; simpl; [rewrite Hk; exact H|].
    apply nodup_fold_pop. rewrite Hk. exact H.
  - exact H.
Qed.

Lemma exec_op_release_incs fpow fsin e o (rq : Q) :
  rq = 1 / inject_Z (release_samples e) ->
  Forall (fun p => release_inc (snd p) = rq) (voices e) ->
  Forall (fun p => release_inc (snd p) = rq) (voices (snd (exec_op fpow fsin e o))).
Proof.
  intros Hrq He. apply (exec_op_forall (fun v => release_inc v = rq)); try assumption.
  - intros m mg tp v Hv. pose proof (render_voice_fields fsin mg tp m v) as H.
    destruct (render_voice fsin mg tp m v) as [|c v' dd|v']; [exact I| |].
    + destruct H as [_ [_ [_ [H _]]]]. congruence.
    + destruct H as [_ [_ [_ [H _]]]]. congruence.
  - intros v st Hv. exact Hv.
  - intros v f Hv. exact Hv.
  - intros f vel. unfold note_on.
    destruct (max_voices e <=? Z.of_nat (length (voices e)))%Z; [exact He|].
    apply (forall_dict_set (fun v => release_inc v = rq)); [exact He|]. simpl.
    rewrite Hrq. reflexivity.
Qed.

Lemma run_reachable fpow fsin ops : forall e (rq : Q),
  rq = 1 / inject_Z (release_samples e) ->
  env_ok e -> keys_nodup e -> Forall (fun p => release_inc (snd p) = rq) (voices e) ->
  let e' := snd (run fpow fsin e ops) in
  release_samples e' = release_samples e /\ env_ok e' /\ keys_nodup e' /\
  Forall (fun p => release_inc (snd p) = rq) (voices e').
Proof.
  induction ops as [|o ops IH]; intros e rq Hrq Henv Hnd Hri; [simpl; auto|].
  cbv zeta. rewrite run_cons.
  pose proof (exec_op_env fpow fsin e o Henv) as H1.
  pose proof (exec_op_nodup fpow fsin e o Hnd) as H2.
  pose proof (exec_op_release_incs fpow fsin e o rq Hrq Hri) as H3.
  destruct (exec_op_params fpow fsin e o) as [Hp1 Hp2].
  assert (Hrs : release_samples (snd (exec_op fpow fsin e o)) = release_samples e)
    by (unfold release_samples; rewrite Hp1, Hp2; reflexivity).
  destruct (exec_op fpow fsin e o) as [r0 e1]. simpl in H1, H2, H3, Hrs.
  rewrite <- Hrs in Hrq.
  destruct (IH e1 rq Hrq H1 H2 H3) as [K1 K2].
  destruct (run fpow fsin e1 ops) as [rs e2]. simpl in *. rewrite K1, Hrs. auto.
Qed.

Lemma init_reachable fpow fsin sr mv ops :
  let e' := snd (run fpow fsin (init_engine sr mv) ops) in
  release_samples e' = release_samples (init_engine sr mv) /\ env_ok e' /\ keys_nodup e' /\
  Forall (fun p => release_inc (snd p) = 1 / inject_Z (release_samples (init_engine sr mv))) (voices e').
Proof.
  apply run_reachable; [reflexivity|constructor|constructor|constructor].
Qed.

Lemma release_samples_pos e : (1 <= release_samples e)%Z.
Proof. unfold release_samples. lia. Qed.

(** The envelope bound [env <= 1 <= r * n * (k + 1)] when [r = 1 / R] and
    [R <= n * (k + 1)]. *)
Lemma env_budget (R n : Z) (k : nat) (x : Q) :
  (1 <= R)%Z -> (R <= n * Z.of_nat (Datatypes.S k))%Z -> x <= 1 ->
  x <= 1 / inject_Z R * inject_Z n * inject_Z (Z.of_nat (Datatypes.S k)).
Proof.
  intros HR Hb Hx.
  assert (HRq : 0 < inject_Z R) by (unfold Qlt; simpl; lia).
  setoid_replace (1 / inject_Z R * inject_Z n * inject_Z (Z.of_nat (Datatypes.S k)))
    with (inject_Z (n * Z.of_nat (Datatypes.S k)) / inject_Z R)
    by (rewrite inject_Z_mult; field; lra).
  apply Qle_trans with 1; [exact Hx|].
  apply Qle_shift_div_l; [exact HRq|]. rewrite Qmult_1_l. rewrite <- Zle_Qle. exact Hb.
Qed.

Lemma release_rate_pos e : 0 < 1 / inject_Z (release_samples e).
Proof.
  pose proof (release_samples_pos e) as H.
  apply Qlt_shift_div_l; [unfold Qlt; simpl; lia|]. rewrite Qmult_0_l. reflexivity.
Qed.

Lemma nodup_in_get {A} (k : Z) (a : A) l : NoDup (dict_keys l) -> In (k, a) l -> dict_get k l = Some a.
Proof.
  induction l as [|[k' b] l IH]; simpl; intros Hnd Hin; [contradiction|].
  inversion Hnd as [|? ? Hn Hl]; subst.
  destruct Hin as [Heq|Hin].
  - inversion Heq; subst. rewrite Z.eqb_refl. reflexivity.
  - destruct (Z.eqb k k') eqn:E.
    + apply Z.eqb_eq in E. subst. exfalso. apply Hn. apply (in_map fst) in Hin. exact Hin.
    + apply IH; assumption.
Qed.

Lemma dict_set_in_pair {A} (k : Z) (a : A) l p : In p (dict_set k a l) -> In p l \/ p = (k, a).
Proof.
  induction l as [|[k' b] l IH]; simpl.
  - intros [H|[]]. right. auto.
  - destruct (Z.eqb k k') eqn:E; simpl; intros [H|H].
    + right. apply Z.eqb_eq in E. subst. reflexivity.
    + left. right. exact H.
    + left. left. exact H.
    + destruct (IH H); auto.
Qed.

Lemma forall_nil {A} (l : list A) : Forall (fun _ => ~ True) l -> l = [].
Proof. destruct l as [|x l]; [reflexivity|]. intros H. inversion H. contradiction. Qed.

Lemma forall_not_key {A} (vid : Z) (l : list (Z * A)) :
  Forall (fun p => ~ fst p = vid) l -> ~ In vid (dict_keys l).
Proof.
  intros H Hin. unfold dict_keys in Hin. apply in_map_iff in Hin.
  destruct Hin as [p [Hp Hin]]. rewrite Forall_forall in H. exact (H p Hin Hp).
Qed.

(** After [note_off(vid)] every entry comes from an entry of the pool before
    with the same key, level and release step, a releasing voice stays
    releasing, and the entry [vid] is releasing. *)
Lemma note_off_in e vid p :
  keys_nodup e -> In p (voices (note_off e vid)) ->
  (exists p0, In p0 (voices e) /\ fst p0 = fst p /\ env (snd p0) = env (snd p) /\
     release_inc (snd p0) = release_inc (snd p) /\
     (state (snd p0) = Release -> state (snd p) = Release)) /\
  (fst p = vid -> state (snd p) = Release).
Proof.
  intros Hnd Hp. split.
  - unfold note_off in Hp. destruct (dict_get vid (voices e)) as [v|] eqn:Eg;
      [|exists p; auto].
    destruct (state v) eqn:Es; simpl in Hp; try (exists p; auto; fail);
      (destruct (dict_set_in_pair _ _ _ _ Hp) as [Hp'| ->];
       [exists p; auto|exists (vid, v); simpl; apply dict_get_In in Eg; auto]).
  - intros Hk. destruct p as [x w]. simpl in Hk. subst x. simpl.
    assert (Hnd' : NoDup (dict_keys (voices (note_off e vid))))
      by (rewrite note_off_keys; exact Hnd).
    pose proof (nodup_in_get _ _ _ Hnd' Hp) as Hg.
    rewrite note_off_get_same in Hg.
    destruct (dict_get vid (voices e)) as [v|]; simpl in Hg; [|discriminate].
    injection Hg as <-. reflexivity.
Qed.

Lemma notes_off_in vids : forall e,
  keys_nodup e ->
  keys_nodup (fst (notes_off e vids)) /\
  forall p, In p (voices (fst (notes_off e vids))) ->
  (exists p0, In p0 (voices e) /\ fst p0 = fst p /\ env (snd p0) = env (snd p) /\
     release_inc (snd p0) = release_inc (snd p) /\
     (state (snd p0) = Release -> state (snd p) = Release)) /\
  (In (fst p) vids -> state (snd p) = Release).
Proof.
  induction vids as [|vid vids IH]; intros e Hnd.
  - simpl. split; [exact Hnd|]. intros p Hp. split; [exists p; auto|intros []].
  - simpl. assert (Hnd1 : keys_nodup (note_off e vid))
      by (unfold keys_nodup; rewrite note_off_keys; exact Hnd).
    destruct (IH (note_off e vid) Hnd1) as [Hnd2 IHp].
    destruct (notes_off (note_off e vid) vids) as [e' cs] eqn:E. simpl in *.
    split; [exact Hnd2|]. intros p Hp.
    destruct (IHp p Hp) as [[p1 [Hp1 [Hk1 [He1 [Hi1 Hs1]]]]] Hin].
    destruct (note_off_in e vid p1 Hnd Hp1) as [[p0 [Hp0 [Hk0 [He0 [Hi0 Hs0]]]]] Hv].
    split.
    + exists p0. split; [exact Hp0|]. split; [congruence|]. split; [congruence|].
      split; [congruence|]. intros H. apply Hs1, Hs0, H.
    + intros [Hx|Hx]; [apply Hs1, Hv; congruence|apply Hin, Hx].
Qed.

Lemma notes_off_app l1 : forall e l2,
  notes_off e (l1 ++ l2) =
  (fst (notes_off (fst (notes_off e l1)) l2), snd (notes_off e l1) ++ snd (notes_off (fst (notes_off e l1)) l2)).
Proof.
  induction l1 as [|vid l1 IH]; intros e l2; simpl.
  - destruct (notes_off e l2); reflexivity.
  - rewrite IH. destruct (notes_off (note_off e vid) l1) as [e1 c1]. simpl. reflexivity.
Qed.

Lemma stop_all_items_notes_off tr : forall e, stop_all_items tr e = notes_off e (concat (map snd tr)).
Proof.
  induction tr as [|[i vids] tr IH]; intros e; [reflexivity|].
  simpl. rewrite notes_off_app. destruct (notes_off e vids) as [e1 c1]. simpl.
  rewrite IH. destruct (notes_off e1 (concat (map snd tr))). reflexivity.
Qed.

(** X10. On any engine reached from [SynthEngine(sr, mv)] by any calls,
    [all_notes_off()] followed by [k + 1] blocks of [n > 0] frames empties
    the pool, as soon as the blocks outlast the release: [(k + 1) * n]
    more than [max(1, int(release_sec * sr))] frames. *)
Theorem all_notes_off_drains fpow fsin sr mv ops n k :
  (0 < n)%Z -> (release_samples (init_engine sr mv) < n * Z.of_nat (S k))%Z ->
  voices (snd (run fpow fsin (init_engine sr mv)
                 (ops ++ OpAllNotesOff :: repeat (OpRender n) (S k)))) = [].
Proof.
  intros Hn Hb. rewrite run_app, run_cons_snd.
  destruct (init_reachable fpow fsin sr mv ops) as [HR [Henv [_ Hri]]].
  set (e0 := snd (run fpow fsin (init_engine sr mv) ops)) in *.
  set (R := release_samples (init_engine sr mv)) in *.
  apply forall_nil.
  apply (drain_runs (fun _ => True) fsin n (1 / inject_Z R) Hn (release_rate_pos _) fpow k).
  - apply (exec_op_env fpow fsin e0 OpAllNotesOff Henv).
  - simpl. apply Forall_map. unfold env_ok in Henv. rewrite Forall_forall in Henv, Hri.
    apply Forall_forall. intros p Hp _. simpl.
    split; [reflexivity|]. split; [apply Hri, Hp|].
    apply env_budget; [apply release_samples_pos|apply Z.lt_le_incl, Hb|apply (Henv p Hp)].
Qed.

(** X11. On any engine reached from [SynthEngine(sr, mv)] by any calls,
    [note_off(vid)] followed by [k + 1] blocks of [n > 0] frames that cover
    the release ([(k + 1) * n > max(1, int(release_sec * sr))]) leaves no
    voice [vid] in the pool, whatever state the voice was in. *)
Theorem note_off_drains fpow fsin sr mv ops vid n k :
  (0 < n)%Z -> (release_samples (init_engine sr mv) < n * Z.of_nat (S k))%Z ->
  ~ In vid (dict_keys (voices (snd (run fpow fsin (init_engine sr mv)
                 (ops ++ OpNoteOff vid :: repeat (OpRender n) (S k)))))).
Proof.
  intros Hn Hb. rewrite run_app, run_cons_snd.
  destruct (init_reachable fpow fsin sr mv ops) as [HR [Henv [Hnd Hri]]].
  set (e0 := snd (run fpow fsin (init_engine sr mv) ops)) in *.
  set (R := release_samples (init_engine sr mv)) in *.
  apply forall_not_key.
  apply (drain_runs (fun x => x = vid) fsin n (1 / inject_Z R) Hn (release_rate_pos _) fpow k).
  - apply (exec_op_env fpow fsin e0 (OpNoteOff vid) Henv).
  - simpl. unfold env_ok in Henv. rewrite Forall_forall in Henv, Hri.
    apply Forall_forall. intros p Hp Hk.
    destruct (note_off_in e0 vid p Hnd Hp) as [[p0 [Hp0 [_ [He0 [Hi0 _]]]]] Hs].
    split; [apply Hs, Hk|]. split; [rewrite <- Hi0; apply Hri, Hp0|].
    apply env_budget; [apply release_samples_pos|apply Z.lt_le_incl, Hb|rewrite <- He0; apply (Henv p0 Hp0)].
Qed.

(** X12. [_audition_stop_all()] (called by [pause], [stop] and by turning
    audition off), on any engine reached from [SynthEngine(sr, mv)], sends
    [note_off] to every tracked voice id in order, clears the tracking map,
    and after [k + 1] blocks of [n > 0] frames covering the release
    ([(k + 1) * n > max(1, int(release_sec * sr))]) no
    tracked voice is left in the pool. *)
Theorem audition_stop_all_drains fpow fsin sr mv ops tr n k :
  (0 < n)%Z -> (release_samples (init_engine sr mv) < n * Z.of_nat (S k))%Z ->
  let '(e1, tr1, cs) := audition_stop_all (snd (run fpow fsin (init_engine sr mv) ops)) tr in
  tr1 = [] /\ cs = map CallNoteOff (concat (map snd tr)) /\
  forall vid, In vid (concat (map snd tr)) ->
    ~ In vid (dict_keys (voices (snd (run fpow fsin e1 (repeat (OpRender n) (S k)))))).
Proof.
  intros Hn Hb.
  destruct (init_reachable fpow fsin sr mv ops) as [HR [Henv [Hnd Hri]]].
  set (e0 := snd (run fpow fsin (init_engine sr mv) ops)) in *.
  set (R := release_samples (init_engine sr mv)) in *.
  unfold audition_stop_all. rewrite stop_all_items_notes_off.
  set (vids := concat (map snd tr)).
  destruct (notes_off_spec e0 vids) as [Hcs _].
  destruct (notes_off_in vids e0 Hnd) as [_ Hin].
  destruct (notes_off e0 vids) as [e1 cs] eqn:E. simpl in Hcs, Hin.
  split; [reflexivity|]. split; [exact Hcs|].
  intros vid Hvid. apply forall_not_key.
  unfold env_ok in Henv. rewrite Forall_forall in Henv, Hri.
  enough (Hall : Forall (fun p => ~ In (fst p) vids)
                   (voices (snd (run fpow fsin e1 (repeat (OpRender n) (S k)))))).
  { eapply Forall_impl; [|exact Hall]. intros p H Heq. apply H. rewrite Heq. exact Hvid. }
  apply (drain_runs (fun x => In x vids) fsin n (1 / inject_Z R) Hn (release_rate_pos _) fpow k).
  - unfold env_ok. apply Forall_forall. intros p Hp.
    destruct (Hin p Hp) as [[p0 [Hp0 [_ [He0 _]]]] _]. rewrite <- He0. apply (Henv p0 Hp0).
  - apply Forall_forall. intros p Hp Hk.
    destruct (Hin p Hp) as [[p0 [Hp0 [_ [He0 [Hi0 _]]]]] Hs].
    split; [apply Hs, Hk|]. split; [rewrite <- Hi0; apply Hri, Hp0|].
    apply env_budget; [apply release_samples_pos|apply Z.lt_le_incl, Hb|rewrite <- He0; apply (Henv p0 Hp0)].
Qed.

(** *** Silent blocks *)

Lemma repeat_map_zero (m : nat) : map (fun x => quantize (clip x)) (repeat 0 m) = repeat 0%Z m.
Proof. induction m as [|m IH]; simpl; [reflexivity|]. rewrite IH. reflexivity. Qed.

(** X13. [_render_chunk] with no voice writes [frames] zero samples and
    leaves the engine as it was; with a negative [frames] it writes nothing
    ([np.zeros] raises) and leaves the engine as it was, whatever the
    voices. *)
Theorem render_chunk_edge fsin e frames :
  (voices e = [] -> render_chunk fsin e frames = (repeat 0%Z (Z.to_nat frames), e)) /\
  ((frames < 0)%Z -> render_chunk fsin e frames = ([], e)).
Proof.
  split.
  - intros H. unfold render_chunk, render_core. destruct (frames <? 0)%Z; [reflexivity|].
    rewrite H. simpl. rewrite repeat_map_zero. f_equal.
    destruct e; simpl in *; subst; reflexivity.
  - intros H. unfold render_chunk, render_core.
    destruct (frames <? 0)%Z eqn:E; [|apply Z.ltb_ge in E; lia].
    replace (Z.to_nat frames) with 0%nat by lia. reflexivity.
Qed.

Lemma render_voice_mute fsin mg tp n v c v' dd :
  mg == 0 -> render_voice fsin mg tp n v = VOk c v' dd -> Forall (fun x => x == 0) c.
Proof.
  intros Hmg H. unfold render_voice in H.
  destruct (state v); [| | |discriminate]; cbv zeta in H; unfold split_contrib in H;
  repeat (match type of H with context [if ?b then _ else _] => destruct b end);
  try discriminate; injection H as <- _ _;
  apply Forall_forall; intros x Hx; apply in_map_iff in Hx; destruct Hx as [k [<- _]];
  try (destruct (k <? _)%Z); try reflexivity; rewrite Hmg; ring.
Qed.

Lemma vadd_zero (out c : list Q) :
  Forall (fun x => x == 0) out -> Forall (fun x => x == 0) c -> Forall (fun x => x == 0) (vadd out c).
Proof.
  revert c. induction out as [|o out IH]; intros c Ho Hc; [constructor|].
  destruct c as [|x c]; simpl; [exact Ho|].
  inversion Ho; inversion Hc; subst. constructor; [|apply IH; assumption].
  match goal with H1 : o == 0, H2 : x == 0 |- _ => rewrite H1, H2 end. reflexivity.
Qed.

Lemma render_loop_mute fsin mg tp n : mg == 0 -> forall vs out dead err o vs' d,
  Forall (fun x => x == 0) out ->
  render_loop fsin mg tp n vs out dead = (err, o, vs', d) -> Forall (fun x => x == 0) o.
Proof.
  intros Hmg. induction vs as [|[vid v] vs IH]; simpl; intros out dead err o vs' d Ho H.
  - inversion H; subst. exact Ho.
  - destruct (render_voice fsin mg tp n v) as [|c v' dd|v'] eqn:Er.
    + destruct (render_loop fsin mg tp n vs out (dead ++ [vid])) as [[[e1 o1] vs1] d1] eqn:E.
      inversion H; subst. eapply IH; eauto.
    + destruct (render_loop fsin mg tp n vs (vadd out c) (if dd then dead ++ [vid] else dead))
        as [[[e1 o1] vs1] d1] eqn:E.
      inversion H; subst. eapply IH; [|exact E].
      apply vadd_zero; [exact Ho|]. eapply render_voice_mute; eauto.
    + inversion H; subst. exact Ho.
Qed.

Lemma quantize_clip_zero (x : Q) : x == 0 -> quantize (clip x) = 0%Z.
Proof.
  intros Hx. unfold clip.
  destruct (Qle_bool x (-1)) eqn:E1; qbool; [lra|].
  destruct (Qle_bool 1 x) eqn:E2; qbool; [lra|].
  unfold quantize. rewrite (py_int_comp (x * 32767) 0) by (rewrite Hx; reflexivity).
  reflexivity.
Qed.

(** X14. With the audition volume slider at 0 or below,
    [_on_audition_volume_changed] sets the master gain to 0, and every block
    [_render_chunk] writes afterwards is silence, whatever the voices, their
    envelopes and frequencies. *)
Theorem audition_mute_silence fsin value e frames :
  (value <= 0)%Z ->
  Forall (fun s => s = 0%Z)
    (fst (render_chunk fsin (snd (on_audition_volume_changed value e)) frames)).
Proof.
  intros Hv.
  set (e1 := snd (on_audition_volume_changed value e)).
  assert (Hmg : master_gain e1 == 0).
  { unfold e1, on_audition_volume_changed, py_max, py_min. simpl.
    assert (Hx : inject_Z value / 100 <= 0).
    { apply Qle_shift_div_r; [lra|]. rewrite Qmult_0_l.
      change 0 with (inject_Z 0). rewrite <- Zle_Qle. exact Hv. }
    destruct (qlt_bool (inject_Z value / 100) 1) eqn:E1; qbool;
      destruct (qlt_bool 0 _) eqn:E2; qbool; lra. }
  apply Forall_forall. intros s Hs.
  unfold render_chunk, render_core in Hs.
  destruct (frames <? 0)%Z.
  - simpl in Hs. apply repeat_spec in Hs. exact Hs.
  - destruct (render_loop fsin (master_gain e1) (2 * np_pi / inject_Z (sample_rate e1)) frames
       (voices e1) (repeat 0 (Z.to_nat frames)) []) as [[[err o] vs'] d] eqn:E.
    destruct err; simpl in Hs; [apply repeat_spec in Hs; exact Hs|].
    apply in_map_iff in Hs. destruct Hs as [x [<- Hx]].
    apply quantize_clip_zero.
    assert (Hz : Forall (fun x => x == 0) (repeat 0 (Z.to_nat frames))).
    { apply Forall_forall. intros y Hy. apply repeat_spec in Hy. rewrite Hy. reflexivity. }
    pose proof (render_loop_mute _ _ _ _ Hmg _ _ _ _ _ _ _ Hz E) as Hf.
    rewrite Forall_forall in Hf. apply Hf, Hx.
Qed.

(** *** The gain of a voice after creation *)

Lemma dict_get_map_state (x : Z) (st : env_state) (l : list (Z * voice)) :
  dict_get x (map (fun p => (fst p, with_state (snd p) st)) l) =
  option_map (fun v => with_state v st) (dict_get x l).
Proof.
  induction l as [|[k v] l IH]; simpl; [reflexivity|].
  destruct (Z.eqb x k); [reflexivity|exact IH].
Qed.

Lemma dict_get_fold_pop {A} (dead : list Z) : forall (l : list (Z * A)) x a,
  dict_get x (fold_left (fun l vid => dict_pop vid l) dead l) = Some a -> dict_get x l = Some a.
Proof.
  induction dead as [|d dead IH]; simpl; intros l x a H; [exact H|].
  apply IH in H.
  destruct (Z.eq_dec x d) as [->|Hne].
  - exfalso. apply (dict_pop_not_in d l). apply dict_get_some_key. exists a. exact H.
  - rewrite dict_get_pop_other in H by exact Hne. exact H.
Qed.

Lemma render_loop_get_gain fsin mg tp n : forall vs out dead err o vs' d x w,
  render_loop fsin mg tp n vs out dead = (err, o, vs', d) -> dict_get x vs' = Some w ->
  exists w0, dict_get x vs = Some w0 /\ gain w = gain w0.
Proof.
  induction vs as [|[vid v] vs IH]; simpl; intros out dead err o vs' d x w H Hg.
  - inversion H; subst. discriminate Hg.
  - pose proof (render_voice_fields fsin mg tp n v) as Hf.
    destruct (render_voice fsin mg tp n v) as [|c v' dd|v'].
    + destruct (render_loop fsin mg tp n vs out (dead ++ [vid])) as [[[e1 o1] vs1] d1] eqn:E.
      inversion H; subst. simpl in Hg. destruct (Z.eqb x vid).
      * injection Hg as <-. exists v. split; reflexivity.
      * eapply IH; eauto.
    + destruct (render_loop fsin mg tp n vs (vadd out c) (if dd then dead ++ [vid] else dead))
        as [[[e1 o1] vs1] d1] eqn:E.
      inversion H; subst. simpl in Hg. destruct (Z.eqb x vid).
      * injection Hg as <-. exists v. split; [reflexivity|apply Hf].
      * eapply IH; eauto.
    + inversion H; subst. simpl in Hg. destruct (Z.eqb x vid).
      * injection Hg as <-. exists v. split; [reflexivity|apply Hf].
      * exists w. split; [exact Hg|reflexivity].
Qed.

(** No call changes the gain of the voice kept under an id already handed
    out. *)
Lemma exec_op_gain fpow fsin e o (vid : Z) (g : Q) :
  (vid < next_voice_id e)%Z ->
  (forall w, dict_get vid (voices e) = Some w -> gain w = g) ->
  forall w, dict_get vid (voices (snd (exec_op fpow fsin e o))) = Some w -> gain w = g.
Proof.
  intros Hlt He.
  destruct o as [f vel|k|k f| |ok|m|mg]; simpl; intros w Hw.
  - unfold note_on in Hw.
    destruct (max_voices e <=? Z.of_nat (length (voices e)))%Z; [exact (He w Hw)|].
    simpl in Hw. rewrite dict_get_set_other in Hw by lia. exact (He w Hw).
  - unfold note_off in Hw. destruct (dict_get k (voices e)) as [v|] eqn:Eg; [|exact (He w Hw)].
    destruct (state v); try exact (He w Hw); simpl in Hw;
      (destruct (Z.eq_dec vid k) as [->|Hne];
       [rewrite dict_get_set_same in Hw; injection Hw as <-; exact (He v Eg)
       |rewrite dict_get_set_other in Hw by exact Hne; exact (He w Hw)]).
  - unfold set_voice_freq in Hw. destruct (dict_get k (voices e)) as [v|] eqn:Eg; [|exact (He w Hw)].
    simpl in Hw. destruct (Z.eq_dec vid k) as [->|Hne].
    + rewrite dict_get_set_same in Hw. injection Hw as <-. exact (He v Eg).
    + rewrite dict_get_set_other in Hw by exact Hne. exact (He w Hw).
  - simpl in Hw. rewrite dict_get_map_state in Hw.
    destruct (dict_get vid (voices e)) as [v|] eqn:Eg; [|discriminate Hw].
    injection Hw as <-. exact (He v eq_refl).
  - discriminate Hw.
  - unfold render_chunk, render_core in Hw.
    destruct (m <? 0)%Z; [exact (He w Hw)|].
    destruct (render_loop fsin (master_gain e) (2 * np_pi / inject_Z (sample_rate e)) m
       (voices e) (repeat 0 (Z.to_nat m)) []) as [[[err1 o1] vs1] d1] eqn:E.
    destruct err1; simpl in Hw; [|apply dict_get_fold_pop in Hw];
      destruct (render_loop_get_gain _ _ _ _ _ _ _ _ _ _ _ _ _ E Hw) as [w0 [Hw0 Hg]];
      rewrite Hg; exact (He w0 Hw0).
  - exact (He w Hw).
Qed.

Lemma run_gain fpow fsin (vid : Z) (g : Q) ops : forall e,
  (vid < next_voice_id e)%Z ->
  (forall w, dict_get vid (voices e) = Some w -> gain w = g) ->
  forall w, dict_get vid (voices (snd (run fpow fsin e ops))) = Some w -> gain w = g.
Proof.
  induction ops as [|o ops IH]; intros e Hlt He; [exact He|].
  rewrite run_cons_snd.
  destruct (exec_op_frame fpow fsin e o) as [_ [_ [Hnx _]]].
  apply IH; [lia|]. apply exec_op_gain; assumption.
Qed.

Lemma inv_eq_int (q : Q) (m : Z) : 1 / inject_Z m == 1 / q -> q == inject_Z m.
Proof.
  intros H. unfold Qdiv in H. rewrite !Qmult_1_l in H.
  rewrite <- (Qinv_involutive q), <- H, Qinv_involutive. reflexivity.
Qed.

(** C7 (as amended): a successful [note_on] inserts, under the id it
    returns, a voice with the requested frequency, phase 0, state [Attack],
    envelope 0, gain [(clamp(velocity,0,127)/127) ** 0.8], and increments
    [1 / max(1, int(seconds * sample_rate))]; these equal
    [1 / (seconds * sample_rate)] if, and only if, [seconds * sample_rate] is
    a whole number of at least 1.  The gain is fixed at creation: whatever
    calls follow, the voice kept under that id has the same gain. *)
Theorem note_on_voice_init : forall fpow e f vel,
  (pool_size e < max_voices e)%Z ->
  exists e' v,
    note_on fpow e f vel = (Some (next_voice_id e), e') /\
    dict_get (next_voice_id e) (voices e') = Some v /\
    freq v = f /\ phase v = 0 /\ state v = Attack /\ env v = 0 /\
    gain v = fpow (inject_Z (Z.max 0 (Z.min 127 vel)) / inject_Z 127) (8 # 10) /\
    attack_inc v = 1 / inject_Z (Z.max 1 (py_int (attack_sec e * inject_Z (sample_rate e)))) /\
    release_inc v = 1 / inject_Z (Z.max 1 (py_int (release_sec e * inject_Z (sample_rate e)))) /\
    (forall n, (1 <= n)%Z -> attack_sec e * inject_Z (sample_rate e) == inject_Z n ->
       attack_inc v == 1 / (attack_sec e * inject_Z (sample_rate e))) /\
    (forall n, (1 <= n)%Z -> release_sec e * inject_Z (sample_rate e) == inject_Z n ->
       release_inc v == 1 / (release_sec e * inject_Z (sample_rate e))) /\
    (attack_inc v == 1 / (attack_sec e * inject_Z (sample_rate e)) ->
       exists n, (1 <= n)%Z /\ attack_sec e * inject_Z (sample_rate e) == inject_Z n) /\
    (release_inc v == 1 / (release_sec e * inject_Z (sample_rate e)) ->
       exists n, (1 <= n)%Z /\ release_sec e * inject_Z (sample_rate e) == inject_Z n) /\
    (forall fsin ops w,
       dict_get (next_voice_id e) (voices (snd (run fpow fsin e' ops))) = Some w ->
       gain w = gain v).
Proof.
  intros fpow e f vel Hlt.
  unfold note_on. unfold pool_size in Hlt.
  destruct (max_voices e <=? Z.of_nat (length (voices e)))%Z eqn:E;
    [apply Z.leb_le in E; lia|].
  eexists; eexists. split; [reflexivity|]. split; [simpl; apply dict_get_set_same|].
  split; [reflexivity|split; [reflexivity|split; [reflexivity|split; [reflexivity|]]]].
  split; [reflexivity|split; [reflexivity|split; [reflexivity|]]].
  split; [|split; [|split; [|split]]].
  - intros n Hn Hq. simpl. rewrite (py_int_integer _ n) by (lia || exact Hq).
    rewrite Z.max_r by lia. rewrite Hq. reflexivity.
  - intros n Hn Hq. simpl. rewrite (py_int_integer _ n) by (lia || exact Hq).
    rewrite Z.max_r by lia. rewrite Hq. reflexivity.
  - simpl. intros H. eexists. split; [|exact (inv_eq_int _ _ H)]. lia.
  - simpl. intros H. eexists. split; [|exact (inv_eq_int _ _ H)]. lia.
  - intros fsin ops w. apply run_gain; [simpl; lia|].
    intros w0 Hw0. simpl in Hw0. rewrite dict_get_set_same in Hw0.
    injection Hw0 as <-. reflexivity.
Qed.

End ExtraProofs.

(** ** Instances of the extra properties *)

Module ExtraExamples.

Import Synth Audition Inv SynthProofs Window ExtraProofs Inputs.
Open Scope Q_scope.

(** X14 at the releasing engine with the slider at 0. *)
Lemma audition_mute_silence_witness :
  (0 <= 0)%Z /\
  Forall (fun s => s = 0%Z)
    (fst (render_chunk (fun x => x) (snd (on_audition_volume_changed 0 e_release)) 512)).
Proof.
  assert (H : (0 <= 0)%Z) by lia.
  split; [exact H|]. apply (audition_mute_silence (fun x => x) 0 e_release 512 H).
Defined.

(** X5 at the releasing engine [e_release], dragging from its voice 1 with
    preview volume 0.5: voice 1 is sent to release. *)
Lemma pitch_preview_started_spec_witness :
  ids_below e_release /\
  dict_get 1 (voices (fst (on_pitch_preview_started (fun x _ => x) (fun _ => 440) (1 # 2)
                             (Some 1%Z) e_release 60))) =
    Some (with_state (mkVoice 440 0 1 Release (1 # 100) (1 # 441) (1 # 1323)) Release).
Proof.
  assert (H : ids_below e_release)
    by (unfold ids_below; simpl; constructor; [simpl; lia|constructor]).
  split; [exact H|].
  pose proof (pitch_preview_started_spec (fun x _ => x) (fun _ => 440) (1 # 2) (Some 1%Z)
                e_release 60 H) as Hs.
  destruct (on_pitch_preview_started (fun x _ => x) (fun _ => 440) (1 # 2) (Some 1%Z) e_release 60)
    as [e2 d].
  destruct Hs as [H1 _]. simpl. apply H1; reflexivity.
Defined.

(** X8 from 1000 ms, nudging back by 0.3 s and forward again. *)
Lemma nudge_round_trip_witness :
  (0 <= 1000)%Z /\ (0 <= 1000 + py_int ((-3 # 10) * 1000))%Z /\
  nudge_ms (nudge_ms 1000 (-3 # 10)) (- (-3 # 10)) = 1000%Z.
Proof.
  assert (H1 : (0 <= 1000)%Z) by lia.
  assert (H2 : (0 <= 1000 + py_int ((-3 # 10) * 1000))%Z) by (vm_compute; discriminate).
  split; [exact H1|split; [exact H2|]].
  apply (nudge_round_trip 1000 (-3 # 10) H1 H2).
Defined.

(** X10 at the default engine after two notes and a block: three blocks of
    512 frames cover the 1323-sample release. *)
Lemma all_notes_off_drains_witness :
  (0 < 512)%Z /\ (release_samples (init_engine 44100 32) < 512 * Z.of_nat 3)%Z /\
  voices (snd (run (fun x _ => x) (fun x => x) (init_engine 44100 32)
     ([OpNoteOn 440 100; OpRender 512; OpNoteOn 220 64] ++
      OpAllNotesOff :: repeat (OpRender 512) 3))) = [].
Proof.
  assert (H1 : (0 < 512)%Z) by lia.
  assert (H2 : (release_samples (init_engine 44100 32) < 512 * Z.of_nat 3)%Z)
    by (vm_compute; reflexivity).
  split; [exact H1|split; [exact H2|]].
  apply (all_notes_off_drains (fun x _ => x) (fun x => x) 44100 32
           [OpNoteOn 440 100; OpRender 512; OpNoteOn 220 64] 512 2 H1 H2).
Defined.

(** X11 at the default engine: voice 1, still in its attack, is gone three
    blocks after its [note_off]. *)
Lemma note_off_drains_witness :
  (0 < 512)%Z /\ (release_samples (init_engine 44100 32) < 512 * Z.of_nat 3)%Z /\
  ~ In 1%Z (dict_keys (voices (snd (run (fun x _ => x) (fun x => x) (init_engine 44100 32)
     ([OpNoteOn 440 100; OpNoteOn 220 64; OpRender 64] ++
      OpNoteOff 1 :: repeat (OpRender 512) 3))))).
Proof.
  assert (H1 : (0 < 512)%Z) by lia.
  assert (H2 : (release_samples (init_engine 44100 32) < 512 * Z.of_nat 3)%Z)
    by (vm_compute; reflexivity).
  split; [exact H1|split; [exact H2|]].
  apply (note_off_drains (fun x _ => x) (fun x => x) 44100 32
           [OpNoteOn 440 100; OpNoteOn 220 64; OpRender 64] 1 512 2 H1 H2).
Defined.

(** X12 with note 0 tracked on voice 1: after [_audition_stop_all] and three
    blocks, voice 1 is gone. *)
Lemma audition_stop_all_drains_witness :
  (0 < 512)%Z /\ (release_samples (init_engine 44100 32) < 512 * Z.of_nat 3)%Z /\
  ~ In 1%Z (dict_keys (voices (snd (run (fun x _ => x) (fun x => x)
     (fst (fst (audition_stop_all
        (snd (run (fun x _ => x) (fun x => x) (init_engine 44100 32) [OpNoteOn 440 100]))
        [(0%Z, [1%Z])])))
     (repeat (OpRender 512) 3))))).
Proof.
  assert (H1 : (0 < 512)%Z) by lia.
  assert (H2 : (release_samples (init_engine 44100 32) < 512 * Z.of_nat 3)%Z)
    by (vm_compute; reflexivity).
  split; [exact H1|split; [exact H2|]].
  pose proof (audition_stop_all_drains (fun x _ => x) (fun x => x) 44100 32 [OpNoteOn 440 100]
                [(0%Z, [1%Z])] 512 2 H1 H2) as Hs.
  destruct (audition_stop_all
              (snd (run (fun x _ => x) (fun x => x) (init_engine 44100 32) [OpNoteOn 440 100]))
              [(0%Z, [1%Z])]) as [[e1 tr1] cs].
  destruct Hs as [_ [_ H3]]. simpl. apply H3. simpl. auto.
Defined.

(** C7 at the default engine, where [0.01 * 44100] and [0.03 * 44100] are
    whole: the voice gets id 1, starts in attack at level 0, and its
    increments are 1/441 and 1/1323. *)
Lemma note_on_voice_init_witness :
  (pool_size (init_engine 44100 32) < max_voices (init_engine 44100 32))%Z /\
  exists e' v,
    note_on (fun x _ => x) (init_engine 44100 32) 440 64 = (Some 1%Z, e') /\
    dict_get 1 (voices e') = Some v /\ state v = Attack /\ env v = 0 /\
    attack_inc v == 1 # 441 /\ release_inc v == 1 # 1323.
Proof.
  assert (H : (pool_size (init_engine 44100 32) < max_voices (init_engine 44100 32))%Z)
    by (vm_compute; reflexivity).
  split; [exact H|].
  destruct (note_on_voice_init (fun x _ => x) (init_engine 44100 32) 440 64 H)
    as [e' [v [Hn [Hg [_ [_ [Hs [He [_ [_ [_ [Ha [Hr _]]]]]]]]]]]]].
  exists e', v. split; [exact Hn|split; [exact Hg|split; [exact Hs|split; [exact He|split]]]].
  - eapply Qeq_trans; [apply (Ha 441%Z); [lia|vm_compute; reflexivity]|vm_compute; reflexivity].
  - eapply Qeq_trans; [apply (Hr 1323%Z); [lia|vm_compute; reflexivity]|vm_compute; reflexivity].
Defined.

End ExtraExamples.
